(** * The Windows standalone updater migration of [new_updater.py]

    A shallow embedding of [WindowsUpdater] and of the small part of
    [pathlib], [shutil] and [print] it calls, followed by the properties
    of the migration stated in the specification. *)

From Stdlib Require Import Strings.Byte.
From stdpp Require Import base option list strings gmap.

Local Open Scope string_scope.
Local Open Scope list_scope.
Local Open Scope nat_scope.

Set Warnings "-clear-no-such-hyp".

(** ** Bytes *)

Abbreviation bytes := (list Byte.byte).

#[global] Instance byte_eq_dec : EqDecision Byte.byte := Byte.byte_eq_dec.

(** A [b"..."] literal. *)
Definition b (s : string) : bytes := String.list_byte_of_string s.

(** [bytes.startswith]. *)
Fixpoint startswith (s pre : bytes) {struct pre} : bool :=
  match pre, s with
  | [], _ => true
  | _ :: _, [] => false
  | x :: pre', y :: s' => if decide (x = y) then startswith s' pre' else false
  end.

(** [bytes.replace(old, new)]: every occurrence found by a scan from the
    left is replaced, the scan resuming after the replaced bytes.
    [skip] counts the bytes of a matched occurrence still to be passed
    over.  With an empty [old] Python puts [new] before every byte and
    at the end. *)
Fixpoint replace_from (old new : bytes) (skip : nat) (s : bytes) : bytes :=
  match s with
  | [] => []
  | c :: s' =>
      match skip with
      | S k => replace_from old new k s'
      | O =>
          if startswith s old
          then new ++ replace_from old new (length old - 1) s'
          else c :: replace_from old new 0 s'
      end
  end.

Definition replace (s old new : bytes) : bytes :=
  match old with
  | [] => new ++ flat_map (fun c => c :: new) s
  | _ :: _ => replace_from old new 0 s
  end.

(** ** Paths

    A [pathlib.Path] as its list of parts, the anchor (drive and root)
    first.  The anchor is its own parent. *)

Abbreviation Path := (list string).

Definition parent (p : Path) : Path :=
  match p with
  | [] | [_] => p
  | _ => removelast p
  end.

(** [p / name]. *)
Definition joinpath (p : Path) (name : string) : Path := p ++ [name].
Infix "//" := joinpath (at level 40, left associativity).

(** [str(p)], Windows flavour. *)
Definition path_str (p : Path) : string := String.concat "\" p.

(** ** Exceptions *)

Inductive exc_class :=
| Exception
| OSError
| FileNotFoundError
| PermissionError
| IsADirectoryError
| SameFileError
| UpdaterError.

#[global] Instance exc_class_eq_dec : EqDecision exc_class.
Proof. solve_decision. Defined.

(** The direct base class. *)
Definition base_class (c : exc_class) : option exc_class :=
  match c with
  | Exception => None
  | OSError | UpdaterError => Some Exception
  | FileNotFoundError | PermissionError | IsADirectoryError
  | SameFileError => Some OSError
  end.

Definition issubclass (c d : exc_class) : bool :=
  bool_decide (c = d)
  || bool_decide (base_class c = Some d)
  || bool_decide (base_class c ≫= base_class = Some d).

Record exception := Exc { exc_type : exc_class; exc_str : string }.

(** [except (c1, ..., cn)]. *)
Definition isinstance (e : exception) (cs : list exc_class) : bool :=
  existsb (issubclass (exc_type e)) cs.

(** The errors a file operation of the operating system fails with:
    all of them are [OSError] or one of its subclasses. *)
Inductive os_error :=
| ENOENT
| EACCES
| EISDIR
| ESAME
| EIO.

Definition class_of_os_error (k : os_error) : exc_class :=
  match k with
  | ENOENT => FileNotFoundError
  | EACCES => PermissionError
  | EISDIR => IsADirectoryError
  | ESAME => SameFileError
  | EIO => OSError
  end.

(** ** The world: files, failing operations, standard output, and the
    log of the file operations performed

    A path names a regular file or nothing: directories and links are
    not modelled.  Which operations fail, and how, is part of the world:
    a table of failing reads and a table of failing writes. *)

(** A read of the path fails this way. *)
Record read_fault := ReadFault {
  rf_errno : os_error;
  rf_strerror : string
}.

(** A write to (or a copy onto) the path fails this way; [wf_residue]
    is what the failed operation leaves at the path: [None] leaves it
    as it was, [Some d] leaves a file holding [d] (created, truncated or
    written in part). *)
Record write_fault := WriteFault {
  wf_errno : os_error;
  wf_strerror : string;
  wf_residue : option bytes
}.

Inductive event :=
| EvRead (p : Path)
| EvWrite (p : Path) (data : bytes) (ok : bool)
| EvCopy (src dst : Path) (ok : bool).

#[global] Instance event_eq_dec : EqDecision event.
Proof. solve_decision. Defined.

Record world := World {
  files : gmap Path bytes;
  rfault : gmap Path read_fault;
  wfault : gmap Path write_fault;
  stdout : list string;
  log : list event
}.

(** An operation that writes, whether it succeeds or not. *)
Definition is_write (ev : event) : bool :=
  match ev with
  | EvRead _ => false
  | EvWrite _ _ _ | EvCopy _ _ _ => true
  end.

(** The path an operation writes to. *)
Definition write_target (ev : event) : option Path :=
  match ev with
  | EvRead _ => None
  | EvWrite p _ _ => Some p
  | EvCopy _ dst _ => Some dst
  end.

(** The operations performed from [w] to [w']. *)
Definition new_events (w w' : world) : list event :=
  drop (length (log w)) (log w').

(** The lines printed from [w] to [w']. *)
Definition new_output (w w' : world) : list string :=
  drop (length (stdout w)) (stdout w').

(** ** Computations that change the world and may raise *)

Inductive result (A : Type) :=
| Ok (a : A)
| Raise (e : exception).
Arguments Ok {A} a.
Arguments Raise {A} e.

Definition M (A : Type) : Type := world → result A * world.

Definition ret {A} (a : A) : M A := fun w => (Ok a, w).

Definition raise {A} (e : exception) : M A := fun w => (Raise e, w).

Definition bind {A B} (m : M A) (k : A → M B) : M B :=
  fun w =>
    match m w with
    | (Ok a, w') => k a w'
    | (Raise e, w') => (Raise e, w')
    end.

(** [try: body except (cs) as e: handler e]. *)
Definition try_except {A} (body : M A) (cs : list exc_class)
    (handler : exception → M A) : M A :=
  fun w =>
    match body w with
    | (Ok a, w') => (Ok a, w')
    | (Raise e, w') =>
        if isinstance e cs then handler e w' else (Raise e, w')
    end.

Declare Scope py_scope.
Delimit Scope py_scope with py.
Notation "'do' x <- m ; k" := (bind m (fun x => k))
  (at level 10, x name, m at level 100, k at level 200) : py_scope.
Notation "'run' m ; k" := (bind m (fun _ => k))
  (at level 10, m at level 100, k at level 200) : py_scope.
Local Open Scope py_scope.

Definition set_files (fs : gmap Path bytes) (w : world) : world :=
  World fs (rfault w) (wfault w) (stdout w) (log w).

Definition logged (ev : event) (w : world) : world :=
  World (files w) (rfault w) (wfault w) (stdout w) (log w ++ [ev]).

Definition printed (line : string) (w : world) : world :=
  World (files w) (rfault w) (wfault w) (stdout w ++ [line]) (log w).

(** [print(line)]. *)
Definition print (line : string) : M unit :=
  fun w => (Ok tt, printed line w).

Definition os_exception (k : os_error) (strerror : string) : exception :=
  Exc (class_of_os_error k) strerror.

Definition no_such_file (p : Path) : exception :=
  os_exception ENOENT
    ("[Errno 2] No such file or directory: '" +:+ path_str p +:+ "'").

(** What a failed write leaves at [p]. *)
Definition leave (p : Path) (residue : option bytes)
    (fs : gmap Path bytes) : gmap Path bytes :=
  match residue with
  | None => fs
  | Some d => <[p := d]> fs
  end.

Module pathlib.

(** [Path.exists()]. *)
Definition exists_ (p : Path) : M bool :=
  fun w => (Ok (bool_decide (is_Some (files w !! p))), w).

(** [Path.read_bytes()]. *)
Definition read_bytes (p : Path) : M bytes :=
  fun w =>
    let w' := logged (EvRead p) w in
    match files w !! p with
    | None => (Raise (no_such_file p), w')
    | Some d =>
        match rfault w !! p with
        | Some f => (Raise (os_exception (rf_errno f) (rf_strerror f)), w')
        | None => (Ok d, w')
        end
    end.

(** [Path.write_bytes(data)]: the file is created or truncated, then
    written. *)
Definition write_bytes (p : Path) (data : bytes) : M unit :=
  fun w =>
    match wfault w !! p with
    | Some f =>
        (Raise (os_exception (wf_errno f) (wf_strerror f)),
         logged (EvWrite p data false)
           (set_files (leave p (wf_residue f) (files w)) w))
    | None =>
        (Ok tt,
         logged (EvWrite p data true) (set_files (<[p := data]> (files w)) w))
    end.

End pathlib.

Module shutil.

Definition same_file (src dst : Path) : exception :=
  os_exception ESAME
    (path_str src +:+ " and " +:+ path_str dst +:+ " are the same file").

(** [shutil.copy2(src, dst)] between file paths: the source is opened
    first, then the destination is created or truncated and receives the
    source's bytes. *)
Definition copy2 (src dst : Path) : M unit :=
  fun w =>
    let failed := logged (EvCopy src dst false) in
    match files w !! src with
    | None => (Raise (no_such_file src), failed w)
    | Some d =>
        if decide (src = dst) then (Raise (same_file src dst), failed w)
        else
          match rfault w !! src with
          | Some f =>
              (Raise (os_exception (rf_errno f) (rf_strerror f)), failed w)
          | None =>
              match wfault w !! dst with
              | Some f =>
                  (Raise (os_exception (wf_errno f) (wf_strerror f)),
                   failed (set_files (leave dst (wf_residue f) (files w)) w))
              | None =>
                  (Ok tt,
                   logged (EvCopy src dst true)
                     (set_files (<[dst := d]> (files w)) w))
              end
          end
    end.

End shutil.

(** ** [class WindowsUpdater] *)

Definition EXPECTED_BAT_PREFIX : bytes :=
  b "..\python_embeded\python.exe .\update.py".
Definition OLD_CONTENT : bytes :=
  b "..\python_embeded\python.exe .\update.py ..\ComfyUI\".
Definition NEW_CONTENT : bytes :=
  b "call update_comfyui.bat nopause".

Record WindowsUpdater := {
  base_path : Path;
  top_path : Path;
  source_updater : Path;
  source_bat : Path;
  dest_updater : Path;
  dest_bat : Path;
  dest_bat_deps : Path
}.

Definition __init__ (base_path : Path) : WindowsUpdater :=
  let top_path := parent base_path in
  {| base_path := base_path;
     top_path := top_path;
     source_updater := base_path // ".ci" // "update_windows" // "update.py";
     source_bat :=
       base_path // ".ci" // "update_windows" // "update_comfyui.bat";
     dest_updater := top_path // "update" // "update.py";
     dest_bat := top_path // "update" // "update_comfyui.bat";
     dest_bat_deps :=
       top_path // "update" // "update_comfyui_and_python_dependencies.bat"
  |}.

Definition _validate_paths (self : WindowsUpdater) : M unit :=
  do found <- pathlib.exists_ (source_updater self) ;
  if negb found then
    raise (Exc UpdaterError ("Source updater file not found: "
                             +:+ path_str (source_updater self)))
  else
    do found <- pathlib.exists_ (source_bat self) ;
    if negb found then
      raise (Exc UpdaterError ("Source batch file not found: "
                               +:+ path_str (source_bat self)))
    else ret tt.

Definition _read_file_content (file_path : Path) : M (option bytes) :=
  try_except
    (do d <- pathlib.read_bytes file_path ; ret (Some d))
    [FileNotFoundError; PermissionError; OSError]
    (fun _ => ret None).

Definition _write_file_content (file_path : Path) (content : bytes)
    : M bool :=
  try_except
    (run pathlib.write_bytes file_path content ; ret true)
    [PermissionError; OSError]
    (fun e =>
       run print ("Warning: Could not write to " +:+ path_str file_path
                  +:+ ": " +:+ exc_str e) ;
       ret false).

Definition _should_update (self : WindowsUpdater) : M bool :=
  do content <- _read_file_content (dest_bat self) ;
  match content with
  | None => ret false
  | Some content => ret (startswith content EXPECTED_BAT_PREFIX)
  end.

Definition _update_dependencies_file (self : WindowsUpdater) : M unit :=
  do content <- _read_file_content (dest_bat_deps self) ;
  match content with
  | None => ret tt
  | Some content =>
      let updated_content := replace content OLD_CONTENT NEW_CONTENT in
      run _write_file_content (dest_bat_deps self) updated_content ;
      ret tt
  end.

Definition _copy_files (self : WindowsUpdater) : M unit :=
  try_except
    (run shutil.copy2 (source_updater self) (dest_updater self) ;
     shutil.copy2 (source_bat self) (dest_bat self))
    [FileNotFoundError; PermissionError; OSError]
    (fun e => raise (Exc UpdaterError ("Failed to copy files: "
                                       +:+ exc_str e))).

Definition update (self : WindowsUpdater) : M bool :=
  try_except
    (run _validate_paths self ;
     do should <- _should_update self ;
     if negb should then ret false
     else
       run _copy_files self ;
       run _update_dependencies_file self ;
       run print "Updated the windows standalone package updater." ;
       ret true)
    [UpdaterError]
    (fun e => run print ("Update failed: " +:+ exc_str e) ; ret false).


(** ** What the specification talks about *)

(** The bytes a read of [p] returns, when it succeeds. *)
Definition readable (p : Path) (w : world) : option bytes :=
  match files w !! p with
  | None => None
  | Some d => if rfault w !! p is Some _ then None else Some d
  end.

(** The sentinel can be read and begins with the legacy prefix. *)
Definition eligible (self : WindowsUpdater) (w : world) : bool :=
  match readable (dest_bat self) w with
  | None => false
  | Some d => startswith d EXPECTED_BAT_PREFIX
  end.

(** The number of positions of [s] at which [pat] occurs. *)
Fixpoint occurrences (pat s : bytes) : nat :=
  match s with
  | [] => 0
  | _ :: s' => (if startswith s pat then 1 else 0) + occurrences pat s'
  end.

(** [sep.join(pieces)]. *)
Fixpoint join (sep : bytes) (pieces : list bytes) : bytes :=
  match pieces with
  | [] => []
  | [p] => p
  | p :: rest => p ++ sep ++ join sep rest
  end.

(** No proper suffix of [pat] is a prefix of it: two occurrences of
    [pat] never overlap. *)
Definition borderless (pat : bytes) : bool :=
  forallb (fun k => negb (startswith pat (drop k pat)))
          (seq 1 (length pat - 1)).

(** Both source artifacts exist. *)
Definition sources_present (self : WindowsUpdater) (w : world) : Prop :=
  is_Some (files w !! source_updater self)
  ∧ is_Some (files w !! source_bat self).

(** A read of a source artifact or a write to a primary destination
    fails. *)
Definition copy_blocked (self : WindowsUpdater) (w : world) : Prop :=
  is_Some (rfault w !! source_updater self)
  ∨ is_Some (wfault w !! dest_updater self)
  ∨ is_Some (rfault w !! source_bat self)
  ∨ is_Some (wfault w !! dest_bat self).

(** Both primary copies were carried out in the run from [w] to [w']. *)
Definition performed (self : WindowsUpdater) (w w' : world) : Prop :=
  EvCopy (source_updater self) (dest_updater self) true ∈ new_events w w'
  ∧ EvCopy (source_bat self) (dest_bat self) true ∈ new_events w w'.

(** The five paths of an updater are pairwise different. *)
Record separate (self : WindowsUpdater) : Prop := {
  su_sb : source_updater self ≠ source_bat self;
  su_du : source_updater self ≠ dest_updater self;
  su_db : source_updater self ≠ dest_bat self;
  su_dd : source_updater self ≠ dest_bat_deps self;
  sb_du : source_bat self ≠ dest_updater self;
  sb_db : source_bat self ≠ dest_bat self;
  sb_dd : source_bat self ≠ dest_bat_deps self;
  du_db : dest_updater self ≠ dest_bat self;
  du_dd : dest_updater self ≠ dest_bat_deps self;
  db_dd : dest_bat self ≠ dest_bat_deps self
}.

(** ** The outcomes of the operations

    Each relation lists the results and final worlds an operation can
    have; the lemmas named [..._runs] below show that the operation always
    ends in one of them. *)

(** The outcomes of [shutil.copy2]. *)
Inductive copy2_run (src dst : Path) (w : world)
  : result unit → world → Prop :=
| copy2_done d :
    files w !! src = Some d → src ≠ dst →
    rfault w !! src = None → wfault w !! dst = None →
    copy2_run src dst w (Ok tt)
      (logged (EvCopy src dst true) (set_files (<[dst := d]> (files w)) w))
| copy2_failed k msg residue :
    files w !! src = None ∨ src = dst
    ∨ is_Some (rfault w !! src) ∨ is_Some (wfault w !! dst) →
    copy2_run src dst w (Raise (os_exception k msg))
      (logged (EvCopy src dst false)
         (set_files (leave dst residue (files w)) w)).

(** The outcomes of [_copy_files]. *)
Inductive copy_files_run (self : WindowsUpdater) (w : world)
  : result unit → world → Prop :=
| copy_files_first_failed k msg w1 :
    copy2_run (source_updater self) (dest_updater self) w
      (Raise (os_exception k msg)) w1 →
    copy_files_run self w
      (Raise (Exc UpdaterError ("Failed to copy files: " +:+ msg))) w1
| copy_files_second_failed k msg w1 w2 :
    copy2_run (source_updater self) (dest_updater self) w (Ok tt) w1 →
    copy2_run (source_bat self) (dest_bat self) w1
      (Raise (os_exception k msg)) w2 →
    copy_files_run self w
      (Raise (Exc UpdaterError ("Failed to copy files: " +:+ msg))) w2
| copy_files_done w1 w2 :
    copy2_run (source_updater self) (dest_updater self) w (Ok tt) w1 →
    copy2_run (source_bat self) (dest_bat self) w1 (Ok tt) w2 →
    copy_files_run self w (Ok tt) w2.

(** The outcomes of the patch step. *)
Inductive patch_run (self : WindowsUpdater) (w : world) : world → Prop :=
| patch_skipped :
    readable (dest_bat_deps self) w = None →
    patch_run self w (logged (EvRead (dest_bat_deps self)) w)
| patch_written content :
    readable (dest_bat_deps self) w = Some content →
    wfault w !! dest_bat_deps self = None →
    let updated_content := replace content OLD_CONTENT NEW_CONTENT in
    patch_run self w
      (logged (EvWrite (dest_bat_deps self) updated_content true)
         (set_files (<[dest_bat_deps self := updated_content]> (files w))
            (logged (EvRead (dest_bat_deps self)) w)))
| patch_write_failed content f :
    readable (dest_bat_deps self) w = Some content →
    wfault w !! dest_bat_deps self = Some f →
    let updated_content := replace content OLD_CONTENT NEW_CONTENT in
    patch_run self w
      (printed ("Warning: Could not write to "
                +:+ path_str (dest_bat_deps self) +:+ ": "
                +:+ wf_strerror f)
         (logged (EvWrite (dest_bat_deps self) updated_content false)
            (set_files
               (leave (dest_bat_deps self) (wf_residue f) (files w))
               (logged (EvRead (dest_bat_deps self)) w)))).

(** The outcomes of [update]. *)
Inductive update_run (self : WindowsUpdater) (w : world)
  : result bool → world → Prop :=
| update_invalid msg :
    _validate_paths self w = (Raise (Exc UpdaterError msg), w) →
    update_run self w (Ok false) (printed ("Update failed: " +:+ msg) w)
| update_not_needed :
    _validate_paths self w = (Ok tt, w) →
    eligible self w = false →
    update_run self w (Ok false) (logged (EvRead (dest_bat self)) w)
| update_copy_failed msg w1 :
    _validate_paths self w = (Ok tt, w) →
    eligible self w = true →
    copy_files_run self (logged (EvRead (dest_bat self)) w)
      (Raise (Exc UpdaterError msg)) w1 →
    update_run self w (Ok false) (printed ("Update failed: " +:+ msg) w1)
| update_migrated w1 w2 :
    _validate_paths self w = (Ok tt, w) →
    eligible self w = true →
    copy_files_run self (logged (EvRead (dest_bat self)) w) (Ok tt) w1 →
    patch_run self w1 w2 →
    update_run self w (Ok true)
      (printed "Updated the windows standalone package updater." w2).

(** ** Tactics *)

(** Computes the events and the lines of a run whose final world is
    known. *)
Ltac events :=
  unfold performed, new_events, new_output; simpl;
  rewrite <- ?app_assoc; rewrite ?drop_app_length, ?drop_all; simpl.

(** Membership in a list given by its elements. *)
Ltac members :=
  rewrite ?elem_of_cons, ?elem_of_nil in *; naive_solver.

(** Case analysis on the calls of [shutil.copy2] of a run. *)
Ltac invert_copy2 :=
  repeat match goal with
         | H : copy2_run _ _ _ (Ok _) _ |- _ => inversion H; clear H; subst
         | H : copy2_run _ _ _ (Raise _) _ |- _ => inversion H; clear H; subst
         end.

(** ** A portable install, for the examples *)

Module Scenario.

Definition base : Path := ["C:"; "ComfyUI_windows_portable"; "ComfyUI"].

Definition self : WindowsUpdater := __init__ base.

Definition shipped_updater : bytes := b "import pygit2".
Definition shipped_launcher : bytes := b "@echo off".
Definition legacy_updater : bytes := b "import git".
Definition legacy_launcher : bytes := OLD_CONTENT ++ b " pause".
Definition legacy_deps : bytes := b "x" ++ OLD_CONTENT ++ b "y".
Definition plain_deps : bytes := b "echo done".

Definition install (launcher deps : bytes) : gmap Path bytes :=
  <[source_updater self := shipped_updater]>
    (<[source_bat self := shipped_launcher]>
       (<[dest_updater self := legacy_updater]>
          (<[dest_bat self := launcher]>
             (<[dest_bat_deps self := deps]> ∅)))).

(** A legacy install on which every operation succeeds. *)
Definition legacy : world :=
  World (install legacy_launcher legacy_deps) ∅ ∅ [] [].


(** An install that was migrated already. *)
Definition migrated : world :=
  World (install shipped_launcher legacy_deps) ∅ ∅ [] [].

(** A legacy install whose release lacks the updater script. *)
Definition incomplete : world :=
  World (delete (source_updater self) (install legacy_launcher legacy_deps))
        ∅ ∅ [] [].

(** A legacy install whose launcher cannot be overwritten. *)
Definition locked : world :=
  World (install legacy_launcher legacy_deps) ∅
        {[dest_bat self := WriteFault EACCES "[Errno 13] Permission denied" None]}
        [] [].

(** A legacy install whose dependency script is read-only. *)
Definition read_only_deps : world :=
  World (install legacy_launcher legacy_deps) ∅
        {[dest_bat_deps self :=
            WriteFault EACCES "[Errno 13] Permission denied" None]}
        [] [].

(** A legacy install next to a release whose launcher itself begins
    with the legacy prefix. *)
Definition legacy_release : world :=
  World (<[source_bat self := legacy_launcher]>
           (install legacy_launcher legacy_deps)) ∅ ∅ [] [].

End Scenario.

(** ** Patterns and their replacements *)

(** Neither of [a] and [c] is a prefix of the other. *)
Definition clash (a c : bytes) : bool :=
  negb (startswith a c) && negb (startswith c a).

(** No occurrence of [old] can begin inside a copy of [new], whatever
    follows it, and none can run into one from the left, since the first
    byte of [new] is no byte of [old]. *)
Definition insulated (old new : bytes) : bool :=
  match new with
  | [] => false
  | n :: _ =>
      negb (bool_decide (n ∈ old))
      && forallb (fun j => clash (drop j new) old) (seq 0 (length new))
  end.

(** The bytes of [pieces], without separators. *)
Definition total_length (pieces : list bytes) : nat :=
  foldr (fun p n => length p + n) 0 pieces.

(** * Properties *)

(** ** Byte strings *)

Section byte_strings.

Implicit Types s pre pat old new p q rest : bytes.

Lemma startswith_spec s pre : startswith s pre = true ↔ pre `prefix_of` s.
Proof.
  revert s. induction pre as [|x pre IH]; intros s; simpl.
  - split; [intros _; apply prefix_nil | done].
  - destruct s as [|y s]; simpl.
    + split; [done | intros H; by apply prefix_nil_inv in H].
    + destruct (decide (x = y)) as [->|Hne].
      * rewrite IH. split; [apply prefix_cons | apply prefix_cons_inv_2].
      * split; [done | intros H; by apply prefix_cons_inv_1 in H].
Qed.

Lemma startswith_app pre rest : startswith (pre ++ rest) pre = true.
Proof. apply startswith_spec. by exists rest. Qed.

Lemma startswith_extend s pre rest :
  startswith s pre = true → startswith (s ++ rest) pre = true.
Proof.
  rewrite !startswith_spec. intros [k ->]. exists (k ++ rest).
  by rewrite app_assoc.
Qed.

Lemma prefix_app_short pre q rest :
  pre `prefix_of` q ++ rest → length pre ≤ length q → pre `prefix_of` q.
Proof.
  intros [k Hk] Hlen. exists (take (length q - length pre) k).
  apply (f_equal (take (length q))) in Hk.
  rewrite take_app_length in Hk. rewrite Hk at 1.
  rewrite take_app. rewrite take_ge by lia. done.
Qed.

Lemma prefix_app_long pre q rest :
  pre `prefix_of` q ++ rest → length q ≤ length pre →
  drop (length q) pre `prefix_of` rest.
Proof.
  intros [k Hk] Hlen. exists k.
  apply (f_equal (drop (length q))) in Hk.
  rewrite drop_app_length in Hk. rewrite Hk.
  rewrite drop_app. replace (length q - length pre) with 0 by lia.
  by rewrite drop_0.
Qed.

Lemma occurrences_none pat s i :
  occurrences pat s = 0 → i < length s → startswith (drop i s) pat = false.
Proof.
  revert i. induction s as [|c s IH]; intros i Hocc Hi; simpl in *; [lia|].
  destruct i as [|i].
  - rewrite drop_0. simpl.
    destruct pat as [|x pat]; simpl in *; [lia|].
    destruct (decide (x = c)); [|done].
    destruct (startswith s pat); [lia | done].
  - simpl. apply IH; lia.
Qed.

Lemma occurrences_app_ge pat p rest :
  occurrences pat p + occurrences pat rest ≤ occurrences pat (p ++ rest).
Proof.
  induction p as [|c p IH]; [done|].
  change (occurrences pat ((c :: p) ++ rest))
    with ((if startswith ((c :: p) ++ rest) pat then 1 else 0)
          + occurrences pat (p ++ rest)).
  change (occurrences pat (c :: p))
    with ((if startswith (c :: p) pat then 1 else 0) + occurrences pat p).
  destruct (startswith (c :: p) pat) eqn:Hs.
  - rewrite (startswith_extend _ _ rest Hs). lia.
  - destruct (startswith ((c :: p) ++ rest) pat); lia.
Qed.

Lemma occurrences_hit pat rest :
  pat ≠ [] → 1 + occurrences pat rest ≤ occurrences pat (pat ++ rest).
Proof.
  intros Hne. destruct pat as [|x pat]; [done|].
  change (occurrences (x :: pat) ((x :: pat) ++ rest))
    with ((if startswith ((x :: pat) ++ rest) (x :: pat) then 1 else 0)
          + occurrences (x :: pat) (pat ++ rest)).
  rewrite startswith_app.
  pose proof (occurrences_app_ge (x :: pat) pat rest). lia.
Qed.

(** A single occurrence leaves none on either side. *)
Lemma occurrences_once pat p rest :
  pat ≠ [] → occurrences pat (p ++ pat ++ rest) = 1 →
  occurrences pat p = 0 ∧ occurrences pat rest = 0.
Proof.
  intros Hne H1.
  pose proof (occurrences_app_ge pat p (pat ++ rest)).
  pose proof (occurrences_hit pat rest Hne). lia.
Qed.

Lemma replace_from_skip old new k s :
  k ≤ length s →
  replace_from old new k s = replace_from old new 0 (drop k s).
Proof.
  revert k. induction s as [|c s IH]; intros k Hk; simpl in *.
  - by rewrite drop_nil.
  - destruct k as [|k]; [done|]. simpl. apply IH. lia.
Qed.

(** The scan copies the bytes at which [old] does not occur. *)
Lemma replace_from_pass old new p rest :
  (∀ i, i < length p → startswith (drop i (p ++ rest)) old = false) →
  replace_from old new 0 (p ++ rest) = p ++ replace_from old new 0 rest.
Proof.
  induction p as [|c p IH]; intros Hno; [done|].
  simpl app. cbn [replace_from].
  pose proof (Hno 0 ltac:(simpl; lia)) as H0. rewrite drop_0 in H0.
  simpl app in H0. rewrite H0. f_equal. apply IH.
  intros i Hi. apply (Hno (S i)). simpl. lia.
Qed.

(** At an occurrence the scan emits [new] and resumes after it. *)
Lemma replace_from_hit old new rest :
  old ≠ [] →
  replace_from old new 0 (old ++ rest) = new ++ replace_from old new 0 rest.
Proof.
  intros Hne. destruct old as [|x old]; [done|].
  simpl app. cbn [replace_from].
  change (x :: old ++ rest) with ((x :: old) ++ rest).
  rewrite startswith_app. f_equal.
  rewrite replace_from_skip.
  - simpl. rewrite Nat.sub_0_r, drop_app_length. done.
  - simpl. rewrite length_app. lia.
Qed.

(** Before an occurrence of a borderless [pat] that follows a piece
    free of [pat], there is no other occurrence. *)
Lemma borderless_no_straddle pat p rest i :
  borderless pat = true → occurrences pat p = 0 → i < length p →
  startswith (drop i (p ++ pat ++ rest)) pat = false.
Proof.
  intros Hb Hocc Hi.
  destruct (startswith (drop i (p ++ pat ++ rest)) pat) eqn:Hs; [|done].
  exfalso. apply startswith_spec in Hs.
  rewrite drop_app in Hs. replace (i - length p) with 0 in Hs by lia.
  rewrite drop_0 in Hs.
  set (q := drop i p) in *.
  assert (Hq : length q = length p - i) by (unfold q; apply length_drop).
  destruct (decide (length pat ≤ length q)) as [Hle|Hgt].
  - apply prefix_app_short in Hs; [|done].
    apply startswith_spec in Hs. unfold q in Hs.
    rewrite (occurrences_none pat p i Hocc Hi) in Hs. done.
  - apply prefix_app_long in Hs; [|lia].
    apply prefix_app_short in Hs; [|rewrite length_drop; lia].
    apply startswith_spec in Hs.
    unfold borderless in Hb. rewrite forallb_forall in Hb.
    specialize (Hb (length q)). rewrite Hs in Hb. simpl in Hb.
    assert (In (length q) (seq 1 (length pat - 1))) as Hin
      by (apply in_seq; lia).
    specialize (Hb Hin). done.
Qed.

(** [replace] on a string cut into pieces free of a borderless [old]:
    every separator is replaced and every piece is kept. *)
Lemma replace_join old new (pieces : list bytes) :
  borderless old = true → old ≠ [] →
  Forall (fun p => occurrences old p = 0) pieces →
  replace (join old pieces) old new = join new pieces.
Proof.
  intros Hb Hne Hfree.
  assert (replace_from old new 0 (join old pieces) = join new pieces)
    as Hgoal.
  { induction Hfree as [|p rest Hp Hrest IH]; [done|].
    destruct rest as [|p' rest].
    - simpl. rewrite <- (app_nil_r p) at 1.
      rewrite replace_from_pass; [by rewrite app_nil_r|].
      intros i Hi. rewrite app_nil_r. by apply occurrences_none.
    - change (join old (p :: p' :: rest))
        with (p ++ old ++ join old (p' :: rest)).
      change (join new (p :: p' :: rest))
        with (p ++ new ++ join new (p' :: rest)).
      rewrite replace_from_pass.
      + rewrite replace_from_hit by done. by rewrite IH.
      + intros i Hi. by apply borderless_no_straddle. }
  destruct old; [done | exact Hgoal].
Qed.

Lemma OLD_CONTENT_borderless : borderless OLD_CONTENT = true.
Proof. vm_compute. reflexivity. Qed.

Lemma OLD_CONTENT_nonempty : OLD_CONTENT ≠ [].
Proof. discriminate. Qed.

(** The substitution of the patch step, on a string cut at the legacy
    marker. *)
Lemma patch_join (pieces : list bytes) :
  Forall (fun p => occurrences OLD_CONTENT p = 0) pieces →
  replace (join OLD_CONTENT pieces) OLD_CONTENT NEW_CONTENT
  = join NEW_CONTENT pieces.
Proof.
  apply replace_join;
    [apply OLD_CONTENT_borderless | apply OLD_CONTENT_nonempty].
Qed.

Lemma patch_once p rest :
  occurrences OLD_CONTENT (p ++ OLD_CONTENT ++ rest) = 1 →
  replace (p ++ OLD_CONTENT ++ rest) OLD_CONTENT NEW_CONTENT
  = p ++ NEW_CONTENT ++ rest.
Proof.
  intros H1.
  apply occurrences_once in H1 as [Hp Hr]; [|apply OLD_CONTENT_nonempty].
  apply (patch_join [p; rest]). by repeat constructor.
Qed.

Lemma patch_none s :
  occurrences OLD_CONTENT s = 0 →
  replace s OLD_CONTENT NEW_CONTENT = s.
Proof. intros H0. apply (patch_join [s]). by repeat constructor. Qed.

End byte_strings.

(** ** Paths of an updater built by [__init__] *)

Lemma length_parent (p : Path) : length (parent p) ≤ length p.
Proof.
  destruct p as [|x [|y p]]; simpl; [lia..|].
  change (length (removelast (x :: y :: p)) ≤ S (S (length p))).
  rewrite removelast_firstn_len, length_take. simpl. lia.
Qed.

(** The two sources and the three destinations are five different
    paths. *)
Lemma init_paths_NoDup (base : Path) :
  let self := __init__ base in
  NoDup [source_updater self; source_bat self;
         dest_updater self; dest_bat self; dest_bat_deps self].
Proof.
  simpl. unfold joinpath.
  pose proof (length_parent base) as Hlen.
  assert (∀ (a c d e f : string),
            ((base ++ [a]) ++ [c]) ++ [d] ≠ (parent base ++ [e]) ++ [f])
    as Hcross.
  { intros a c d e f Heq. apply (f_equal length) in Heq.
    rewrite !length_app in Heq. simpl in Heq. lia. }
  assert (∀ (q : Path) (x y : string), x ≠ y → q ++ [x] ≠ q ++ [y])
    as Hlast.
  { intros q x y Hne Heq. apply app_inv_head in Heq. congruence. }
  repeat (apply NoDup_cons; split);
    [ rewrite ?elem_of_cons, elem_of_nil .. | apply NoDup_nil_2 ].
  - intros [H|[H|[H|[H|[]]]]];
      [by apply Hlast in H | by apply Hcross in H ..].
  - intros [H|[H|[H|[]]]]; by apply Hcross in H.
  - intros [H|[H|[]]]; by apply Hlast in H.
  - intros [H|[]]; by apply Hlast in H.
  - intros [].
Qed.

Lemma init_separate (base : Path) : separate (__init__ base).
Proof.
  pose proof (init_paths_NoDup base) as Hnd. cbv zeta in Hnd.
  repeat match type of Hnd with
         | NoDup (_ :: _) =>
             apply NoDup_cons in Hnd as [? Hnd]
         end.
  split; intros Heq; rewrite Heq in *; set_solver.
Qed.

(** ** The operations, one by one *)

Lemma issubclass_os_error (k : os_error) :
  issubclass (class_of_os_error k) OSError = true.
Proof. by destruct k. Qed.

(** An [except] clause that lists [OSError] catches every failure of a
    file operation. *)
Lemma os_exception_caught k msg (cs : list exc_class) :
  In OSError cs → isinstance (os_exception k msg) cs = true.
Proof.
  intros Hin. unfold isinstance. apply existsb_exists.
  exists OSError. split; [done | apply issubclass_os_error].
Qed.

Lemma set_files_same (w : world) : set_files (files w) w = w.
Proof. by destruct w. Qed.

Lemma new_events_app (w w' : world) evs :
  log w' = log w ++ evs → new_events w w' = evs.
Proof. unfold new_events. intros ->. apply drop_app_length. Qed.

Lemma new_output_app (w w' : world) lines :
  stdout w' = stdout w ++ lines → new_output w w' = lines.
Proof. unfold new_output. intros ->. apply drop_app_length. Qed.

Lemma _validate_paths_eq self w :
  _validate_paths self w =
  (match files w !! source_updater self, files w !! source_bat self with
   | None, _ =>
       Raise (Exc UpdaterError ("Source updater file not found: "
                                +:+ path_str (source_updater self)))
   | Some _, None =>
       Raise (Exc UpdaterError ("Source batch file not found: "
                                +:+ path_str (source_bat self)))
   | Some _, Some _ => Ok tt
   end, w).
Proof.
  unfold _validate_paths, bind, pathlib.exists_.
  destruct (files w !! source_updater self) as [d1|]; [|done].
  rewrite bool_decide_eq_true_2 by eauto. cbn [negb].
  destruct (files w !! source_bat self) as [d2|]; [|done].
  rewrite bool_decide_eq_true_2 by eauto. done.
Qed.

Lemma _read_file_content_eq p w :
  _read_file_content p w = (Ok (readable p w), logged (EvRead p) w).
Proof.
  unfold _read_file_content, try_except, bind, pathlib.read_bytes, readable.
  destruct (files w !! p) as [d|].
  - destruct (rfault w !! p) as [f|]; [|done].
    rewrite os_exception_caught by (simpl; tauto). done.
  - unfold no_such_file. rewrite os_exception_caught by (simpl; tauto). done.
Qed.

Lemma _should_update_eq self w :
  _should_update self w
  = (Ok (eligible self w), logged (EvRead (dest_bat self)) w).
Proof.
  unfold _should_update, bind, eligible. rewrite _read_file_content_eq.
  by destruct (readable (dest_bat self) w).
Qed.

Lemma _write_file_content_eq p data w :
  _write_file_content p data w =
  match wfault w !! p with
  | Some f =>
      (Ok false,
       printed ("Warning: Could not write to " +:+ path_str p +:+ ": "
                +:+ wf_strerror f)
         (logged (EvWrite p data false)
            (set_files (leave p (wf_residue f) (files w)) w)))
  | None =>
      (Ok true,
       logged (EvWrite p data true) (set_files (<[p := data]> (files w)) w))
  end.
Proof.
  unfold _write_file_content, try_except, bind, pathlib.write_bytes.
  destruct (wfault w !! p) as [f|]; [|done].
  rewrite os_exception_caught by (simpl; tauto). done.
Qed.

Lemma copy2_runs src dst w :
  copy2_run src dst w (shutil.copy2 src dst w).1 (shutil.copy2 src dst w).2.
Proof.
  unfold shutil.copy2.
  destruct (files w !! src) as [d|] eqn:Hsrc; simpl.
  - destruct (decide (src = dst)) as [Heq|Hne]; simpl.
    { rewrite <- (set_files_same w) at 2.
      apply (copy2_failed _ _ _ ESAME _ None). tauto. }
    destruct (rfault w !! src) as [f|] eqn:Hr; simpl.
    { rewrite <- (set_files_same w) at 2.
      apply (copy2_failed _ _ _ _ _ None). rewrite Hr. eauto. }
    destruct (wfault w !! dst) as [f|] eqn:Hw; simpl.
    + apply copy2_failed. rewrite Hw. eauto.
    + by apply copy2_done.
  - rewrite <- (set_files_same w) at 2.
    apply (copy2_failed _ _ _ ENOENT _ None). tauto.
Qed.

Lemma _copy_files_runs self w :
  copy_files_run self w (_copy_files self w).1 (_copy_files self w).2.
Proof.
  unfold _copy_files, try_except, bind.
  pose proof (copy2_runs (source_updater self) (dest_updater self) w)
    as Hfirst.
  destruct (shutil.copy2 (source_updater self) (dest_updater self) w)
    as [r1 w1]. simpl in Hfirst.
  inversion Hfirst; subst.
  - pose proof (copy2_runs (source_bat self) (dest_bat self)
        (logged (EvCopy (source_updater self) (dest_updater self) true)
           (set_files (<[dest_updater self := d]> (files w)) w)))
      as Hsecond.
    destruct (shutil.copy2 (source_bat self) (dest_bat self) _) as [r2 w2].
    simpl in Hsecond. inversion Hsecond; subst.
    + simpl. eapply copy_files_done; eauto.
    + rewrite os_exception_caught by (simpl; tauto). simpl.
      eapply copy_files_second_failed; eauto.
  - rewrite os_exception_caught by (simpl; tauto). simpl.
    eapply copy_files_first_failed; eauto.
Qed.

Lemma _update_dependencies_file_runs self w :
  ∃ w', _update_dependencies_file self w = (Ok tt, w') ∧ patch_run self w w'.
Proof.
  unfold _update_dependencies_file, bind. rewrite _read_file_content_eq.
  destruct (readable (dest_bat_deps self) w) as [content|] eqn:Hread.
  - rewrite _write_file_content_eq.
    change (wfault (logged (EvRead (dest_bat_deps self)) w)) with (wfault w).
    destruct (wfault w !! dest_bat_deps self) as [f|] eqn:Hw.
    + eexists; split; [done|]. exact (patch_write_failed _ _ _ _ Hread Hw).
    + eexists; split; [done|]. exact (patch_written _ _ _ Hread Hw).
  - eexists; split; [done|]. by apply patch_skipped.
Qed.

Lemma update_runs self w r w' :
  update self w = (r, w') → update_run self w r w'.
Proof.
  unfold update, try_except. unfold bind at 1.
  destruct (_validate_paths self w) as [rv wv] eqn:Hv.
  pose proof Hv as Hv'. rewrite _validate_paths_eq in Hv'.
  injection Hv' as Hrv <-.
  destruct rv as [[]|e].
  - unfold bind at 1. rewrite _should_update_eq.
    destruct (eligible self w) eqn:Hel; cbn [negb].
    2:{ intros [= <- <-]. by constructor. }
    unfold bind at 1.
    pose proof (_copy_files_runs self (logged (EvRead (dest_bat self)) w))
      as Hc.
    destruct (_copy_files self (logged (EvRead (dest_bat self)) w))
      as [rc wc]. simpl in Hc.
    inversion Hc; subst.
    + simpl. intros [= <- <-]. eapply update_copy_failed; eauto.
    + simpl. intros [= <- <-]. eapply update_copy_failed; eauto.
    + unfold bind at 1.
      destruct (_update_dependencies_file_runs self wc) as (w2 & -> & Hp).
      simpl. intros [= <- <-]. eapply update_migrated; eauto.
  - assert (∃ msg, e = Exc UpdaterError msg) as [msg ->].
    { destruct (files w !! source_updater self);
        [destruct (files w !! source_bat self)|]; naive_solver. }
    simpl. intros [= <- <-]. by constructor.
Qed.

(** ** Frames *)

Lemma lookup_leave_ne (p q : Path) (residue : option bytes)
    (fs : gmap Path bytes) :
  p ≠ q → leave p residue fs !! q = fs !! q.
Proof. intros Hne. destruct residue; simpl; [by apply lookup_insert_ne | done]. Qed.

(** What a run of [shutil.copy2] changes. *)
Lemma copy2_run_frame src dst w r w1 :
  copy2_run src dst w r w1 →
  rfault w1 = rfault w ∧ wfault w1 = wfault w ∧ stdout w1 = stdout w
  ∧ (∀ p, p ≠ dst → files w1 !! p = files w !! p)
  ∧ ∃ ok, log w1 = log w ++ [EvCopy src dst ok]
          ∧ (ok = true ↔ r = Ok tt).
Proof.
  intros [d Hsrc Hne Hr Hw | k msg residue Hcause]; simpl.
  - repeat split; [intros p Hp; by apply lookup_insert_ne|].
    exists true. done.
  - repeat split; [intros p Hp; by apply lookup_leave_ne|].
    exists false. split; [done|]. split; discriminate.
Qed.

Lemma copy_files_run_frame self w r w1 :
  copy_files_run self w r w1 →
  rfault w1 = rfault w ∧ wfault w1 = wfault w ∧ stdout w1 = stdout w
  ∧ (∀ p, p ≠ dest_updater self → p ≠ dest_bat self →
          files w1 !! p = files w !! p)
  ∧ ∃ evs, log w1 = log w ++ evs
      ∧ Forall (fun ev =>
                  ∃ ok, ev = EvCopy (source_updater self) (dest_updater self) ok
                        ∨ ev = EvCopy (source_bat self) (dest_bat self) ok)
               evs.
Proof.
  intros [k msg w' H1 | k msg w' w'' H1 H2 | w' w'' H1 H2].
  - apply copy2_run_frame in H1 as (Hr & Hw & Hs & Hf & ok & Hl & _).
    repeat split; [done.. | by intros p Hp _; apply Hf |].
    exists [EvCopy (source_updater self) (dest_updater self) ok].
    split; [done|]. repeat constructor. eauto.
  - apply copy2_run_frame in H1 as (Hr & Hw & Hs & Hf & ok & Hl & _).
    apply copy2_run_frame in H2 as (Hr2 & Hw2 & Hs2 & Hf2 & ok2 & Hl2 & _).
    repeat split; [congruence.. | |].
    + intros p Hp1 Hp2. rewrite Hf2, Hf; done.
    + eexists. rewrite Hl2, Hl, <- app_assoc. split; [done|].
      repeat constructor; eauto.
  - apply copy2_run_frame in H1 as (Hr & Hw & Hs & Hf & ok & Hl & _).
    apply copy2_run_frame in H2 as (Hr2 & Hw2 & Hs2 & Hf2 & ok2 & Hl2 & _).
    repeat split; [congruence.. | |].
    + intros p Hp1 Hp2. rewrite Hf2, Hf; done.
    + eexists. rewrite Hl2, Hl, <- app_assoc. split; [done|].
      repeat constructor; eauto.
Qed.

Lemma patch_run_frame self w w1 :
  patch_run self w w1 →
  rfault w1 = rfault w ∧ wfault w1 = wfault w
  ∧ (∀ p, p ≠ dest_bat_deps self → files w1 !! p = files w !! p)
  ∧ ∃ evs, log w1 = log w ++ EvRead (dest_bat_deps self) :: evs
      ∧ Forall (fun ev => ∃ data ok, ev = EvWrite (dest_bat_deps self) data ok)
               evs.
Proof.
  intros [Hread | content Hread Hw upd | content f Hread Hw upd]; simpl.
  - repeat split. exists []. split; [done | constructor].
  - repeat split; [intros p Hp; by apply lookup_insert_ne|].
    eexists [_]. rewrite <- app_assoc. split; [done|].
    repeat constructor. eauto.
  - repeat split; [intros p Hp; by apply lookup_leave_ne|].
    eexists [_]. rewrite <- app_assoc. split; [done|].
    repeat constructor. eauto.
Qed.

(** ** Runs of [update] *)

Lemma sources_present_validated self w :
  sources_present self w ↔ _validate_paths self w = (Ok tt, w).
Proof.
  rewrite _validate_paths_eq. unfold sources_present.
  destruct (files w !! source_updater self) as [d1|];
    [destruct (files w !! source_bat self) as [d2|]|].
  - split; [done | eauto].
  - split; [intros [_ []] | ]; done.
  - split; [intros [[] _] | ]; done.
Qed.

Lemma readable_frame (p : Path) (w w1 : world) :
  files w1 !! p = files w !! p → rfault w1 = rfault w →
  readable p w1 = readable p w.
Proof. unfold readable. by intros -> ->. Qed.

Section separate_paths.

Context (self : WindowsUpdater) (Hsep : separate self).

(** When the primary copies are both carried out, the destinations hold
    the bytes of the sources. *)
Lemma copy_files_run_done w w1 :
  copy_files_run self w (Ok tt) w1 →
  ∃ d1 d2,
    files w !! source_updater self = Some d1
    ∧ files w !! source_bat self = Some d2
    ∧ files w1 = <[dest_bat self := d2]> (<[dest_updater self := d1]> (files w))
    ∧ rfault w1 = rfault w ∧ wfault w1 = wfault w ∧ stdout w1 = stdout w
    ∧ log w1 = log w ++ [EvCopy (source_updater self) (dest_updater self) true;
                         EvCopy (source_bat self) (dest_bat self) true]
    ∧ ¬ copy_blocked self w.
Proof.
  destruct Hsep. intros Hc. inversion Hc as [| |w' w'' H1 H2]; subst.
  inversion H1 as [d1 Hs1 Hne1 Hr1 Hw1|]; subst.
  inversion H2 as [d2 Hs2 Hne2 Hr2 Hw2|]; subst.
  simpl in *. rewrite lookup_insert_ne in Hs2 by done.
  exists d1, d2. repeat split; [done.. | by rewrite <- app_assoc |].
  unfold copy_blocked. rewrite Hr1, Hw1, Hr2, Hw2.
  intros [[? H]|[[? H]|[[? H]|[? H]]]]; discriminate.
Qed.

(** A copy of a primary file fails only when it is blocked. *)
Lemma copy_files_run_failed w e w1 :
  sources_present self w →
  copy_files_run self w (Raise e) w1 →
  copy_blocked self w
  ∧ (∃ msg, e = Exc UpdaterError ("Failed to copy files: " +:+ msg))
  ∧ stdout w1 = stdout w
  ∧ (log w1 = log w ++ [EvCopy (source_updater self) (dest_updater self)
                                false]
     ∨ log w1 = log w ++ [EvCopy (source_updater self) (dest_updater self)
                                  true;
                          EvCopy (source_bat self) (dest_bat self) false]).
Proof.
  destruct Hsep. intros [[d1 Hs1] [d2 Hs2]] Hc. unfold copy_blocked.
  inversion Hc as [k msg w' H1|k msg w' w'' H1 H2|]; subst.
  - inversion H1 as [|k' msg' residue Hcause]; subst. simpl.
    repeat split; [naive_solver | eauto |]. by left.
  - inversion H1 as [d Hs Hne Hr Hw|]; subst.
    inversion H2 as [|k' msg' residue Hcause]; subst. simpl in *.
    rewrite lookup_insert_ne in Hcause by done.
    repeat split; [naive_solver | eauto |].
    right. by rewrite <- app_assoc.
Qed.

(** With the sources present, the sentinel eligible and no copy
    blocked, the migration is performed. *)
Lemma update_succeeds w :
  sources_present self w → eligible self w = true →
  ¬ copy_blocked self w →
  ∃ w1 w2,
    update self w
    = (Ok true, printed "Updated the windows standalone package updater." w2)
    ∧ copy_files_run self (logged (EvRead (dest_bat self)) w) (Ok tt) w1
    ∧ patch_run self w1 w2.
Proof.
  intros Hsrc Hel Hfree.
  destruct (update self w) as [r w'] eqn:Hu. apply update_runs in Hu.
  inversion Hu as [msg Hv|Hv Hel'|msg w1 Hv Hel' Hc|w1 w2 Hv Hel' Hc Hp];
    subst.
  - apply sources_present_validated in Hsrc. congruence.
  - congruence.
  - apply copy_files_run_failed in Hc as [Hb _]; done.
  - eauto.
Qed.

(** A run that returns [True] has performed the copies and the patch
    step. *)
Lemma update_true_inv w w' :
  update self w = (Ok true, w') →
  ∃ w1 w2,
    w' = printed "Updated the windows standalone package updater." w2
    ∧ copy_files_run self (logged (EvRead (dest_bat self)) w) (Ok tt) w1
    ∧ patch_run self w1 w2.
Proof.
  intros Hu. apply update_runs in Hu.
  inversion Hu; subst. eauto.
Qed.

(** The file holding the dependency script is the same before and after
    the primary copies. *)
Lemma deps_after_copies w w1 :
  copy_files_run self (logged (EvRead (dest_bat self)) w) (Ok tt) w1 →
  files w1 !! dest_bat_deps self = files w !! dest_bat_deps self
  ∧ readable (dest_bat_deps self) w1 = readable (dest_bat_deps self) w
  ∧ wfault w1 = wfault w.
Proof.
  destruct Hsep. intros Hc.
  apply copy_files_run_done in Hc
    as (d1 & d2 & _ & _ & Hf & Hr & Hw & _). simpl in *.
  assert (files w1 !! dest_bat_deps self = files w !! dest_bat_deps self)
    as Hdeps by (rewrite Hf, !lookup_insert_ne; done).
  repeat split; [done | by apply readable_frame | done].
Qed.

(** What a run that returns [True] does to a readable dependency
    script. *)
Lemma update_true_patch w w' content :
  update self w = (Ok true, w') →
  readable (dest_bat_deps self) w = Some content →
  EvWrite (dest_bat_deps self) (replace content OLD_CONTENT NEW_CONTENT)
    (bool_decide (wfault w !! dest_bat_deps self = None))
    ∈ new_events w w'
  ∧ (wfault w !! dest_bat_deps self = None →
     files w' !! dest_bat_deps self
     = Some (replace content OLD_CONTENT NEW_CONTENT)).
Proof.
  intros Hu Hread.
  apply update_true_inv in Hu as (w1 & w2 & -> & Hc & Hp).
  destruct (deps_after_copies _ _ Hc) as (_ & Hread1 & Hw1).
  apply copy_files_run_done in Hc as (_ & _ & _ & _ & _ & _ & _ & _ & Hl & _).
  rewrite <- Hread1 in Hread. rewrite <- Hw1.
  inversion Hp as [Hr|c Hr Hw|c f Hr Hw]; subst; [congruence|..];
    rewrite Hr in Hread; injection Hread as ->; rewrite Hw.
  - split.
    + unfold new_events. simpl. rewrite Hl. simpl.
      rewrite <- !app_assoc, drop_app_length. simpl.
      rewrite !elem_of_cons. tauto.
    + intros _. simpl. apply lookup_insert_eq.
  - split; [|done].
    unfold new_events. simpl. rewrite Hl. simpl.
    rewrite <- !app_assoc, drop_app_length. simpl.
    rewrite !elem_of_cons. tauto.
Qed.

(** A run returns [True] exactly when both primary copies were carried
    out. *)
Lemma update_performed w r w' :
  update self w = (r, w') → (r = Ok true ↔ performed self w w').
Proof.
  intros Hu. apply update_runs in Hu.
  inversion Hu as [msg Hv|Hv Hel|msg w1 Hv Hel Hc|w1 w2 Hv Hel Hc Hp];
    subst.
  - split; [done|]. events. intros [Hin _]. members.
  - split; [done|]. events. intros [Hin _]. members.
  - split; [done|].
    inversion Hc; clear Hc; subst; invert_copy2; events.
    + intros [Hin _]. members.
    + intros [_ Hin]. destruct Hsep. members.
  - split; [intros _|done].
    apply patch_run_frame in Hp as (_ & _ & _ & evs & Hlog & _).
    inversion Hc; clear Hc; subst; invert_copy2. unfold performed, new_events.
    simpl. rewrite Hlog. simpl. rewrite <- ?app_assoc, drop_app_length.
    simpl. rewrite !elem_of_cons. tauto.
Qed.

End separate_paths.

(** ** The claims *)




(** C2: when the sentinel is absent, cannot be read, or does not begin
    with the legacy prefix, [update] returns [False], leaves every file
    as it was and performs no write. *)
Theorem fail_closed (self : WindowsUpdater) (w : world) :
  files w !! dest_bat self = None
  ∨ is_Some (rfault w !! dest_bat self)
  ∨ (∃ content, files w !! dest_bat self = Some content
                ∧ startswith content EXPECTED_BAT_PREFIX = false) →
  ∃ w', update self w = (Ok false, w')
        ∧ files w' = files w
        ∧ Forall (fun ev => is_write ev = false) (new_events w w').
Proof.
  intros Hsentinel.
  assert (eligible self w = false) as Hno.
  { unfold eligible, readable.
    destruct Hsentinel as [-> | [[f ->] | (content & -> & Hpre)]];
      [done | by destruct (files w !! dest_bat self) |].
    by destruct (rfault w !! dest_bat self). }
  destruct (update self w) as [r w'] eqn:Hu.
  apply update_runs in Hu.
  inversion Hu as [msg Hv|Hv Hel|msg w1 Hv Hel Hc|w1 w2 Hv Hel Hc Hp];
    subst; try congruence.
  - eexists. split; [done|]. split; [done|]. events. constructor.
  - eexists. split; [done|]. split; [done|]. events. by repeat constructor.
Qed.

(** C3: when a source artifact is missing, [update] returns [False],
    performs no file operation at all, leaves every file as it was and
    prints the failure naming the missing source; so any file operation
    of a run comes after a successful validation of the sources. *)
Theorem missing_source_aborts (self : WindowsUpdater) (w : world) :
  (files w !! source_updater self = None
   ∨ files w !! source_bat self = None →
   ∃ w', update self w = (Ok false, w')
         ∧ files w' = files w
         ∧ new_events w w' = []
         ∧ ((files w !! source_updater self = None
             ∧ new_output w w'
               = ["Update failed: Source updater file not found: "
                  +:+ path_str (source_updater self)])
            ∨ (is_Some (files w !! source_updater self)
               ∧ files w !! source_bat self = None
               ∧ new_output w w'
                 = ["Update failed: Source batch file not found: "
                    +:+ path_str (source_bat self)])))
  ∧ (new_events w (update self w).2 ≠ [] →
     _validate_paths self w = (Ok tt, w)).
Proof.
  destruct (update self w) as [r w'] eqn:Hu. simpl.
  apply update_runs in Hu.
  pose proof (_validate_paths_eq self w) as Hv.
  inversion Hu as [msg Hv'|Hv' Hel|msg w1 Hv' Hel Hc|w1 w2 Hv' Hel Hc Hp];
    subst; rewrite Hv' in Hv.
  - split; [intros _ | events; done].
    eexists. split; [done|]. split; [done|]. split; [by events|].
    destruct (files w !! source_updater self) as [d1|].
    + right. destruct (files w !! source_bat self) as [d2|]; [done|].
      injection Hv as ->. repeat split; [eauto|]. by events.
    + left. injection Hv as ->. split; [done|]. by events.
  - split; [|done]. intros [Hm|Hm]; rewrite Hm in Hv; [done|].
    by destruct (files w !! source_updater self).
  - split; [|done]. intros [Hm|Hm]; rewrite Hm in Hv; [done|].
    by destruct (files w !! source_updater self).
  - split; [|done]. intros [Hm|Hm]; rewrite Hm in Hv; [done|].
    by destruct (files w !! source_updater self).
Qed.

(** C4: in an eligible state, when a copy of a primary file fails
    during the run, [update] returns [False] and prints the copy
    failure; the patch step is not executed: the dependency script is
    neither read nor written, and no file other than the two primary
    destinations changes. *)
Theorem copy_failure_aborts (base : Path) (w : world) (src dst : Path) :
  let self := __init__ base in
  let w' := (update self w).2 in
  eligible self w = true →
  EvCopy src dst false ∈ new_events w w' →
  (update self w).1 = Ok false
  ∧ (∃ msg, new_output w w'
            = ["Update failed: Failed to copy files: " +:+ msg])
  ∧ Forall (fun ev => ev ≠ EvRead (dest_bat_deps self)
                      ∧ write_target ev ≠ Some (dest_bat_deps self))
           (new_events w w')
  ∧ (∀ p, p ≠ dest_updater self → p ≠ dest_bat self →
          files w' !! p = files w !! p).
Proof.
  intros self w' Hel Hfailed.
  pose proof (init_separate base) as Hsep. fold self in Hsep.
  clearbody self. subst w'.
  destruct (update self w) as [r w'] eqn:Hu. cbn [fst snd] in *.
  apply update_runs in Hu.
  inversion Hu as [msg Hv|Hv Hel'|msg w1 Hv Hel' Hc|w1 w2 Hv Hel' Hc Hp];
    subst.
  - revert Hfailed. events. intros Hin. members.
  - congruence.
  - clear Hfailed.
    pose proof (copy_files_run_frame _ _ _ _ Hc) as (_ & _ & _ & Hf & _).
    apply (copy_files_run_failed self Hsep) in Hc
      as (_ & [m [= ->]] & Hout & Hlog);
      [|apply sources_present_validated in Hv; exact Hv].
    split; [done|]. split.
    { exists m. unfold new_output. simpl. rewrite Hout. simpl.
      by rewrite drop_app_length. }
    destruct Hsep. split.
    + unfold new_events. simpl in *.
      destruct Hlog as [-> | ->]; rewrite <- app_assoc, drop_app_length;
        simpl; repeat constructor; simpl; congruence.
    + intros p Hp1 Hp2. simpl. by rewrite Hf.
  - exfalso.
    apply copy_files_run_done in Hc
      as (_ & _ & _ & _ & _ & _ & _ & _ & Hlog & _); [|done].
    apply patch_run_frame in Hp as (_ & _ & _ & evs & Hlog' & Hevs).
    revert Hfailed. unfold new_events. simpl in *. rewrite Hlog', Hlog.
    rewrite <- !app_assoc, drop_app_length. simpl.
    rewrite !elem_of_cons. intros [?|[?|[?|[?|Hin]]]]; try discriminate.
    rewrite Forall_forall in Hevs.
    destruct (Hevs _ Hin) as (data & ok & ?). discriminate.
Qed.

(** C5: in an eligible state, when both primary copies are carried
    out, [update] returns [True] whatever happens in the patch step:
    when the dependency script is absent or cannot be read the step is
    skipped and nothing but the success line is printed; when its write
    fails a warning is printed before the success line. *)
Theorem patch_failure_tolerated (base : Path) (w : world) :
  let self := __init__ base in
  let w' := (update self w).2 in
  eligible self w = true →
  performed self w w' →
  (update self w).1 = Ok true
  ∧ (files w !! dest_bat_deps self = None
     ∨ is_Some (rfault w !! dest_bat_deps self) →
     new_output w w' = ["Updated the windows standalone package updater."]
     ∧ files w' !! dest_bat_deps self = files w !! dest_bat_deps self
     ∧ Forall (fun ev => write_target ev ≠ Some (dest_bat_deps self))
              (new_events w w'))
  ∧ (∀ f, is_Some (readable (dest_bat_deps self) w) →
          wfault w !! dest_bat_deps self = Some f →
          new_output w w'
          = ["Warning: Could not write to "
             +:+ path_str (dest_bat_deps self) +:+ ": " +:+ wf_strerror f;
             "Updated the windows standalone package updater."]).
Proof.
  intros self w' Hel Hdone.
  pose proof (init_separate base) as Hsep. fold self in Hsep.
  clearbody self. subst w'.
  destruct (update self w) as [r w'] eqn:Hu. cbn [fst snd] in *.
  apply (update_performed self Hsep _ _ _ Hu) in Hdone as ->.
  split; [done|].
  apply (update_true_inv self) in Hu as (w1 & w2 & -> & Hc & Hp).
  destruct (deps_after_copies self Hsep _ _ Hc) as (Hdeps & Hread & Hwf).
  apply copy_files_run_done in Hc
    as (_ & _ & _ & _ & _ & _ & _ & Hout & Hlog & _); [|done].
  simpl in Hout, Hlog. destruct Hsep.
  split.
  - intros Habsent.
    assert (readable (dest_bat_deps self) w = None) as Hnone.
    { unfold readable. destruct Habsent as [-> | [f ->]]; [done|].
      by destruct (files w !! dest_bat_deps self). }
    rewrite <- Hread in Hnone.
    inversion Hp as [Hr|c Hr Hw|c f Hr Hw]; subst; [|congruence..].
    split; [|split].
    + unfold new_output. simpl. rewrite Hout. by rewrite drop_app_length.
    + done.
    + unfold new_events. simpl. rewrite Hlog.
      rewrite <- !app_assoc, drop_app_length. simpl.
      repeat constructor; simpl; congruence.
  - intros f [content Hcontent] Hfault.
    rewrite <- Hread in Hcontent. rewrite <- Hwf in Hfault.
    inversion Hp as [Hr|c Hr Hw|c f' Hr Hw]; subst; [congruence..|].
    assert (f' = f) as -> by congruence.
    unfold new_output. simpl. rewrite Hout.
    by rewrite <- !app_assoc, drop_app_length.
Qed.

(** C6, amended: after a run that returns [True], in which the
    dependency script could be read and its write-back did not fail, a
    script that held the legacy marker exactly once holds the same bytes
    with that occurrence replaced by the new marker; in general, a
    script cut into marker-free pieces by the legacy marker holds the
    same pieces joined by the new marker. *)
Theorem patch_byte_exact (base : Path) (w : world) :
  let self := __init__ base in
  let w' := (update self w).2 in
  (update self w).1 = Ok true →
  wfault w !! dest_bat_deps self = None →
  (∀ before after,
      readable (dest_bat_deps self) w
      = Some (before ++ OLD_CONTENT ++ after) →
      occurrences OLD_CONTENT (before ++ OLD_CONTENT ++ after) = 1 →
      files w' !! dest_bat_deps self
      = Some (before ++ NEW_CONTENT ++ after))
  ∧ (∀ pieces,
      readable (dest_bat_deps self) w = Some (join OLD_CONTENT pieces) →
      Forall (fun p => occurrences OLD_CONTENT p = 0) pieces →
      files w' !! dest_bat_deps self = Some (join NEW_CONTENT pieces)).
Proof.
  intros self w' Htrue Hwrite.
  pose proof (init_separate base) as Hsep. fold self in Hsep.
  clearbody self. subst w'.
  destruct (update self w) as [r w'] eqn:Hu. cbn [fst snd] in *. subst r.
  split.
  - intros before after Hread Honce.
    destruct (update_true_patch self Hsep _ _ _ Hu Hread) as [_ Hfile].
    rewrite Hfile by done. by rewrite patch_once.
  - intros pieces Hread Hfree.
    destruct (update_true_patch self Hsep _ _ _ Hu Hread) as [_ Hfile].
    rewrite Hfile by done. by rewrite patch_join.
Qed.


(** C7, amended: from a state with both sources present, the sentinel
    eligible and no failing operation, in which the source launcher does
    not itself begin with the legacy prefix, a first run returns [True]
    and a second run returns [False]. *)
Theorem second_run_not_needed (base : Path) (w : world) :
  let self := __init__ base in
  sources_present self w → eligible self w = true →
  rfault w = ∅ → wfault w = ∅ →
  (∀ content, files w !! source_bat self = Some content →
              startswith content EXPECTED_BAT_PREFIX = false) →
  ∃ w1 w2, update self w = (Ok true, w1) ∧ update self w1 = (Ok false, w2).
Proof.
  intros self Hsrc Hel Hr Hw Hmodern.
  pose proof (init_separate base) as Hsep. fold self in Hsep.
  clearbody self.
  assert (¬ copy_blocked self w) as Hfree.
  { unfold copy_blocked. rewrite Hr, Hw, !lookup_empty.
    intros [[? H]|[[? H]|[[? H]|[? H]]]]; discriminate. }
  destruct (update_succeeds self Hsep w Hsrc Hel Hfree)
    as (w1 & w2 & Hu & Hc & Hp).
  set (line := "Updated the windows standalone package updater.") in *.
  apply copy_files_run_done in Hc
    as (d1 & d2 & _ & Hs2 & Hf & Hr1 & _); [|done].
  apply patch_run_frame in Hp as (Hr2 & _ & Hf2 & _).
  simpl in Hf, Hr1.
  assert (eligible self (printed line w2) = false) as Hno.
  { unfold eligible, readable. simpl. destruct Hsep.
    rewrite Hf2, Hf, lookup_insert_eq, Hr2, Hr1, Hr, lookup_empty by done.
    by apply Hmodern. }
  exists (printed line w2).
  destruct (update self (printed line w2)) as [r w3] eqn:Hu2.
  exists w3. split; [done|].
  apply update_runs in Hu2. inversion Hu2; subst; congruence.
Qed.

(** ** The claims on the example install *)

Lemma fail_closed_witness :
  (files Scenario.migrated !! dest_bat Scenario.self = None
   ∨ is_Some (rfault Scenario.migrated !! dest_bat Scenario.self)
   ∨ (∃ content,
        files Scenario.migrated !! dest_bat Scenario.self = Some content
        ∧ startswith content EXPECTED_BAT_PREFIX = false))
  ∧ ∃ w', update Scenario.self Scenario.migrated = (Ok false, w')
          ∧ files w' = files Scenario.migrated
          ∧ Forall (fun ev => is_write ev = false)
                   (new_events Scenario.migrated w').
Proof.
  assert (files Scenario.migrated !! dest_bat Scenario.self = None
   ∨ is_Some (rfault Scenario.migrated !! dest_bat Scenario.self)
   ∨ (∃ content,
        files Scenario.migrated !! dest_bat Scenario.self = Some content
        ∧ startswith content EXPECTED_BAT_PREFIX = false)) as Hyp.
  { right; right. exists Scenario.shipped_launcher.
    split; vm_compute; reflexivity. }
  split; [exact Hyp | exact (fail_closed _ _ Hyp)].
Defined.

Lemma missing_source_aborts_witness :
  files Scenario.incomplete !! source_updater Scenario.self = None
  ∧ ∃ w', update Scenario.self Scenario.incomplete = (Ok false, w')
          ∧ files w' = files Scenario.incomplete
          ∧ new_events Scenario.incomplete w' = []
          ∧ new_output Scenario.incomplete w'
            = ["Update failed: Source updater file not found: "
               +:+ path_str (source_updater Scenario.self)].
Proof.
  assert (files Scenario.incomplete !! source_updater Scenario.self = None)
    as Hyp by (vm_compute; reflexivity).
  split; [exact Hyp|].
  destruct (proj1 (missing_source_aborts Scenario.self Scenario.incomplete)
              (or_introl Hyp)) as (w' & Hu & Hfiles & Hev & [[_ Hout] | Hout]).
  - exists w'. repeat split; assumption.
  - destruct Hout as [[d Hd] _]. rewrite Hyp in Hd. discriminate Hd.
Defined.

Lemma copy_failure_aborts_witness :
  eligible Scenario.self Scenario.locked = true
  ∧ EvCopy (source_bat Scenario.self) (dest_bat Scenario.self) false
      ∈ new_events Scenario.locked (update Scenario.self Scenario.locked).2
  ∧ (update Scenario.self Scenario.locked).1 = Ok false
  ∧ (∃ msg, new_output Scenario.locked
              (update Scenario.self Scenario.locked).2
            = ["Update failed: Failed to copy files: " +:+ msg])
  ∧ Forall (fun ev => ev ≠ EvRead (dest_bat_deps Scenario.self)
                      ∧ write_target ev ≠ Some (dest_bat_deps Scenario.self))
           (new_events Scenario.locked
              (update Scenario.self Scenario.locked).2)
  ∧ (∀ p, p ≠ dest_updater Scenario.self → p ≠ dest_bat Scenario.self →
          files (update Scenario.self Scenario.locked).2 !! p
          = files Scenario.locked !! p).
Proof.
  assert (eligible Scenario.self Scenario.locked = true) as Hel
    by (vm_compute; reflexivity).
  assert (EvCopy (source_bat Scenario.self) (dest_bat Scenario.self) false
            ∈ new_events Scenario.locked
                (update Scenario.self Scenario.locked).2) as Hfailed
    by (apply (bool_decide_unpack _); vm_compute; exact I).
  repeat (split; [assumption|]).
  exact (copy_failure_aborts Scenario.base Scenario.locked _ _ Hel Hfailed).
Defined.

Lemma patch_failure_tolerated_witness :
  eligible Scenario.self Scenario.read_only_deps = true
  ∧ performed Scenario.self Scenario.read_only_deps
      (update Scenario.self Scenario.read_only_deps).2
  ∧ (update Scenario.self Scenario.read_only_deps).1 = Ok true
  ∧ new_output Scenario.read_only_deps
      (update Scenario.self Scenario.read_only_deps).2
    = ["Warning: Could not write to "
       +:+ path_str (dest_bat_deps Scenario.self)
       +:+ ": [Errno 13] Permission denied";
       "Updated the windows standalone package updater."].
Proof.
  assert (eligible Scenario.self Scenario.read_only_deps = true) as Hel
    by (vm_compute; reflexivity).
  assert (performed Scenario.self Scenario.read_only_deps
            (update Scenario.self Scenario.read_only_deps).2) as Hdone
    by (split; apply (bool_decide_unpack _); vm_compute; exact I).
  repeat (split; [assumption|]).
  destruct (patch_failure_tolerated Scenario.base Scenario.read_only_deps
              Hel Hdone) as (Htrue & _ & Hwarn).
  split; [exact Htrue|].
  apply (Hwarn (WriteFault EACCES "[Errno 13] Permission denied" None)).
  - eexists. vm_compute. reflexivity.
  - vm_compute. reflexivity.
Defined.

Lemma patch_byte_exact_witness :
  (update Scenario.self Scenario.legacy).1 = Ok true
  ∧ wfault Scenario.legacy !! dest_bat_deps Scenario.self = None
  ∧ readable (dest_bat_deps Scenario.self) Scenario.legacy
    = Some (b "x" ++ OLD_CONTENT ++ b "y")
  ∧ occurrences OLD_CONTENT (b "x" ++ OLD_CONTENT ++ b "y") = 1
  ∧ files (update Scenario.self Scenario.legacy).2
      !! dest_bat_deps Scenario.self
    = Some (b "x" ++ NEW_CONTENT ++ b "y").
Proof.
  assert ((update Scenario.self Scenario.legacy).1 = Ok true) as Htrue
    by (vm_compute; reflexivity).
  assert (wfault Scenario.legacy !! dest_bat_deps Scenario.self = None)
    as Hwrite by (vm_compute; reflexivity).
  assert (readable (dest_bat_deps Scenario.self) Scenario.legacy
          = Some (b "x" ++ OLD_CONTENT ++ b "y")) as Hread
    by (vm_compute; reflexivity).
  assert (occurrences OLD_CONTENT (b "x" ++ OLD_CONTENT ++ b "y") = 1)
    as Honce by (vm_compute; reflexivity).
  repeat (split; [assumption|]).
  exact (proj1 (patch_byte_exact Scenario.base Scenario.legacy Htrue Hwrite)
           (b "x") (b "y") Hread Honce).
Defined.


Lemma second_run_not_needed_witness :
  sources_present Scenario.self Scenario.legacy
  ∧ eligible Scenario.self Scenario.legacy = true
  ∧ rfault Scenario.legacy = ∅
  ∧ wfault Scenario.legacy = ∅
  ∧ ∃ w1 w2,
      update Scenario.self Scenario.legacy = (Ok true, w1)
      ∧ update Scenario.self w1 = (Ok false, w2).
Proof.
  assert (sources_present Scenario.self Scenario.legacy) as Hsrc
    by (split; eexists; vm_compute; reflexivity).
  assert (eligible Scenario.self Scenario.legacy = true) as Hel
    by (vm_compute; reflexivity).
  repeat (split; [assumption || reflexivity|]).
  apply (second_run_not_needed Scenario.base Scenario.legacy Hsrc Hel
           eq_refl eq_refl).
  intros content Hcontent. vm_compute in Hcontent.
  injection Hcontent as <-. vm_compute. reflexivity.
Defined.

(** C7, as stated, fails on a release whose launcher itself begins with
    the legacy prefix: both sources are present, the sentinel is
    eligible, no operation fails, and the second run returns [True]
    again. *)
Lemma second_run_repeats_on_legacy_release :
  sources_present Scenario.self Scenario.legacy_release
  ∧ eligible Scenario.self Scenario.legacy_release = true
  ∧ rfault Scenario.legacy_release = ∅
  ∧ wfault Scenario.legacy_release = ∅
  ∧ (update Scenario.self Scenario.legacy_release).1 = Ok true
  ∧ (update Scenario.self
       (update Scenario.self Scenario.legacy_release).2).1 = Ok true.
Proof.
  split; [split; eexists; vm_compute; reflexivity|].
  repeat split; vm_compute; reflexivity.
Qed.

(** C6, as stated, fails on an install whose dependency script is
    read-only: the run returns [True], the script holds the legacy
    marker exactly once, and it still holds it afterwards. *)
Lemma patch_skipped_on_read_only_script :
  (update Scenario.self Scenario.read_only_deps).1 = Ok true
  ∧ files Scenario.read_only_deps !! dest_bat_deps Scenario.self
    = Some (b "x" ++ OLD_CONTENT ++ b "y")
  ∧ occurrences OLD_CONTENT (b "x" ++ OLD_CONTENT ++ b "y") = 1
  ∧ files (update Scenario.self Scenario.read_only_deps).2
      !! dest_bat_deps Scenario.self
    = Some (b "x" ++ OLD_CONTENT ++ b "y")
  ∧ b "x" ++ OLD_CONTENT ++ b "y" ≠ b "x" ++ NEW_CONTENT ++ b "y".
Proof.
  repeat split; try (vm_compute; reflexivity).
  vm_compute. discriminate.
Qed.

(** * Further properties of the updater *)

(** ** More on byte strings *)

Section replacement.

Implicit Types s pre pat old new a rest : bytes.

Lemma prefix_app_cover pat a rest :
  pat `prefix_of` a ++ rest → length a ≤ length pat → a `prefix_of` pat.
Proof.
  intros [k Hk] Hlen. exists (drop (length a) pat).
  apply (f_equal (take (length a))) in Hk.
  rewrite take_app_length, take_app in Hk.
  replace (length a - length pat) with 0 in Hk by lia.
  rewrite take_0, app_nil_r in Hk. rewrite Hk at 1. by rewrite take_drop.
Qed.

Lemma clash_app a pat rest :
  clash a pat = true → startswith (a ++ rest) pat = false.
Proof.
  unfold clash. intros [Ha Hp]%andb_true_iff.
  apply negb_true_iff in Ha, Hp.
  destruct (startswith (a ++ rest) pat) eqn:Hs; [|done].
  apply startswith_spec in Hs.
  destruct (decide (length pat ≤ length a)) as [Hle|Hgt].
  - apply prefix_app_short in Hs; [|done].
    apply startswith_spec in Hs. congruence.
  - apply prefix_app_cover in Hs; [|lia].
    apply startswith_spec in Hs. congruence.
Qed.

Lemma occurrences_app_none pat a rest :
  (∀ j, j < length a → startswith (drop j (a ++ rest)) pat = false) →
  occurrences pat (a ++ rest) = occurrences pat rest.
Proof.
  induction a as [|c a IH]; intros Hno; [done|].
  change (occurrences pat ((c :: a) ++ rest))
    with ((if startswith ((c :: a) ++ rest) pat then 1 else 0)
          + occurrences pat (a ++ rest)).
  pose proof (Hno 0 ltac:(simpl; lia)) as H0. rewrite drop_0 in H0.
  rewrite H0, IH; [done|].
  intros j Hj. apply (Hno (S j)). simpl. lia.
Qed.

(** After an occurrence of a borderless pattern the count goes on with
    what follows it. *)
Lemma occurrences_hit_exact pat rest :
  borderless pat = true → pat ≠ [] →
  occurrences pat (pat ++ rest) = S (occurrences pat rest).
Proof.
  intros Hb Hne. destruct pat as [|x pat'] eqn:Hpat; [done|].
  rewrite <- Hpat in *.
  assert (pat ++ rest = x :: (pat' ++ rest)) as -> by (by rewrite Hpat).
  change (occurrences pat (x :: pat' ++ rest))
    with ((if startswith (x :: pat' ++ rest) pat then 1 else 0)
          + occurrences pat (pat' ++ rest)).
  assert (startswith (x :: pat' ++ rest) pat = true) as ->.
  { rewrite Hpat. change (x :: pat' ++ rest) with ((x :: pat') ++ rest).
    apply startswith_app. }
  rewrite occurrences_app_none; [done|].
  intros j Hj.
  destruct (startswith (drop j (pat' ++ rest)) pat) eqn:Hs; [|done].
  exfalso. apply startswith_spec in Hs.
  rewrite drop_app in Hs. replace (j - length pat') with 0 in Hs by lia.
  rewrite drop_0 in Hs.
  assert (drop j pat' = drop (S j) pat) as Hd by (by rewrite Hpat).
  rewrite Hd in Hs.
  apply prefix_app_cover in Hs; [|rewrite length_drop; lia].
  apply startswith_spec in Hs.
  unfold borderless in Hb. rewrite forallb_forall in Hb.
  specialize (Hb (S j)). rewrite Hs in Hb. simpl in Hb.
  assert (In (S j) (seq 1 (length pat - 1))) as Hin.
  { apply in_seq. rewrite Hpat. simpl. lia. }
  specialize (Hb Hin). done.
Qed.

(** The output of the scan begins with [pre] only if its input does,
    when the first byte of [new] is no byte of [pre]. *)
Lemma replace_from_prefix old n new' pre s :
  n ∉ pre →
  startswith (replace_from old (n :: new') 0 s) pre = true →
  startswith s pre = true.
Proof.
  revert pre. induction s as [|c s IH]; intros pre Hn; [done|].
  cbn [replace_from].
  destruct (startswith (c :: s) old).
  - destruct pre as [|x pre]; [done|]. simpl.
    destruct (decide (x = n)) as [->|]; [|done].
    exfalso. apply Hn. by left.
  - destruct pre as [|x pre]; [done|]. simpl.
    destruct (decide (x = c)); [|done].
    apply IH. intros Hin. apply Hn. by right.
Qed.

(** The scan leaves no occurrence of [old] behind. *)
Lemma replace_from_free old new s :
  insulated old new = true → old ≠ [] →
  occurrences old (replace_from old new 0 s) = 0.
Proof.
  intros Hins Hne. unfold insulated in Hins.
  destruct new as [|n new'] eqn:Hnew; [done|]. rewrite <- Hnew in *.
  apply andb_true_iff in Hins as [Hn Hclash].
  apply negb_true_iff, bool_decide_eq_false in Hn.
  rewrite forallb_forall in Hclash.
  remember (length s) as m eqn:Hm. revert s Hm.
  induction m as [m IH] using lt_wf_ind. intros s Hm.
  destruct s as [|c s]; [done|]. cbn [replace_from].
  destruct (startswith (c :: s) old) eqn:Hs.
  - assert (length old ≤ S (length s)) as Hlen.
    { apply startswith_spec, prefix_length in Hs. exact Hs. }
    rewrite replace_from_skip by lia.
    rewrite occurrences_app_none.
    + apply (IH (length (drop (length old - 1) s))); [|done].
      rewrite length_drop. simpl in Hm. lia.
    + intros j Hj. rewrite drop_app.
      replace (j - length new) with 0 by lia. rewrite drop_0.
      apply clash_app, Hclash, in_seq. lia.
  - change (occurrences old (c :: replace_from old new 0 s))
      with ((if startswith (c :: replace_from old new 0 s) old
             then 1 else 0)
            + occurrences old (replace_from old new 0 s)).
    rewrite (IH (length s)) by (simpl in Hm; lia || done).
    destruct (startswith (c :: replace_from old new 0 s) old) eqn:Hout;
      [|done].
    exfalso.
    assert (replace_from old new 0 (c :: s)
            = c :: replace_from old new 0 s) as Hstep
      by (cbn [replace_from]; by rewrite Hs).
    rewrite <- Hstep, Hnew in Hout.
    apply replace_from_prefix in Hout; [congruence | done].
Qed.

Lemma NEW_CONTENT_insulated : insulated OLD_CONTENT NEW_CONTENT = true.
Proof. vm_compute. reflexivity. Qed.

(** The patched bytes hold no legacy marker. *)
Lemma patch_free s :
  occurrences OLD_CONTENT (replace s OLD_CONTENT NEW_CONTENT) = 0.
Proof.
  change (replace s OLD_CONTENT NEW_CONTENT)
    with (replace_from OLD_CONTENT NEW_CONTENT 0 s).
  apply replace_from_free;
    [apply NEW_CONTENT_insulated | apply OLD_CONTENT_nonempty].
Qed.

(** Patching patched bytes changes nothing. *)
Lemma patch_twice s :
  replace (replace s OLD_CONTENT NEW_CONTENT) OLD_CONTENT NEW_CONTENT
  = replace s OLD_CONTENT NEW_CONTENT.
Proof. apply patch_none, patch_free. Qed.

(** Every byte string is cut by a borderless pattern into pieces free
    of it, one more than it has occurrences. *)
Lemma split_exists pat s :
  borderless pat = true → pat ≠ [] →
  ∃ pieces,
    s = join pat pieces
    ∧ Forall (fun p => occurrences pat p = 0) pieces
    ∧ length pieces = S (occurrences pat s).
Proof.
  intros Hb Hne.
  remember (length s) as m eqn:Hm. revert s Hm.
  induction m as [m IH] using lt_wf_ind. intros s Hm.
  destruct s as [|c s]; [exists [[]]; by repeat constructor|].
  destruct (startswith (c :: s) pat) eqn:Hs.
  - apply startswith_spec in Hs as [t Ht].
    assert (length t < m) as Hlt.
    { apply (f_equal length) in Ht. rewrite length_app in Ht.
      destruct pat; [done|]. simpl in *. lia. }
    destruct (IH _ Hlt t eq_refl) as (pieces & Hjoin & Hfree & Hcount).
    exists ([] :: pieces). destruct pieces as [|p pieces]; [done|].
    split; [by rewrite Ht, Hjoin|]. split; [by constructor|].
    rewrite Ht, occurrences_hit_exact by done. simpl in *. lia.
  - assert (length s < m) as Hlt by (simpl in Hm; lia).
    destruct (IH _ Hlt s eq_refl) as (pieces & Hjoin & Hfree & Hcount).
    destruct pieces as [|p pieces]; [done|].
    exists ((c :: p) :: pieces). split; [|split].
    + destruct pieces; simpl in *; by rewrite Hjoin.
    + apply Forall_cons in Hfree as [Hp Hrest]. constructor; [|done].
      change (occurrences pat (c :: p))
        with ((if startswith (c :: p) pat then 1 else 0)
              + occurrences pat p).
      rewrite Hp. destruct (startswith (c :: p) pat) eqn:Hcp; [|done].
      exfalso.
      assert (startswith (c :: s) pat = true); [|congruence].
      destruct pieces as [|p' pieces]; simpl in Hjoin; subst s; [done|].
      exact (startswith_extend (c :: p) pat _ Hcp).
    + change (occurrences pat (c :: s))
        with ((if startswith (c :: s) pat then 1 else 0)
              + occurrences pat s).
      rewrite Hs. simpl in *. lia.
Qed.

Lemma length_join sep (pieces : list bytes) :
  pieces ≠ [] →
  length (join sep pieces) + length sep
  = total_length pieces + length sep * length pieces.
Proof.
  induction pieces as [|p pieces IH]; [done|]. intros _.
  destruct pieces as [|p' pieces].
  - simpl. lia.
  - change (join sep (p :: p' :: pieces))
      with (p ++ sep ++ join sep (p' :: pieces)).
    rewrite !length_app.
    change (total_length (p :: p' :: pieces))
      with (length p + total_length (p' :: pieces)).
    change (length (p :: p' :: pieces)) with (S (length (p' :: pieces))).
    specialize (IH ltac:(done)). lia.
Qed.

End replacement.

(** ** The substitution of the patch step *)

(** X1: every content is cut by the legacy marker into marker-free
    pieces, one more than it holds markers, and the substitution yields
    the same pieces joined by the new marker. *)
Theorem patch_is_split_join (content : bytes) :
  ∃ pieces,
    content = join OLD_CONTENT pieces
    ∧ Forall (fun p => occurrences OLD_CONTENT p = 0) pieces
    ∧ length pieces = S (occurrences OLD_CONTENT content)
    ∧ replace content OLD_CONTENT NEW_CONTENT = join NEW_CONTENT pieces.
Proof.
  destruct (split_exists OLD_CONTENT content OLD_CONTENT_borderless
              OLD_CONTENT_nonempty) as (pieces & Hjoin & Hfree & Hcount).
  exists pieces. repeat split; [done..|].
  rewrite Hjoin. by apply patch_join.
Qed.

(** X2: the substitution shortens a content by 21 bytes for each legacy
    marker it holds. *)
Theorem patch_length (content : bytes) :
  length (replace content OLD_CONTENT NEW_CONTENT)
  + 21 * occurrences OLD_CONTENT content
  = length content.
Proof.
  destruct (split_exists OLD_CONTENT content OLD_CONTENT_borderless
              OLD_CONTENT_nonempty) as (pieces & Hjoin & Hfree & Hcount).
  assert (pieces ≠ []) as Hne by (by destruct pieces).
  pose proof (length_join OLD_CONTENT pieces Hne) as Hold.
  pose proof (length_join NEW_CONTENT pieces Hne) as Hnew.
  rewrite <- (patch_join pieces Hfree), <- Hjoin in Hnew.
  rewrite <- Hjoin in Hold.
  change (length OLD_CONTENT) with 52 in Hold.
  change (length NEW_CONTENT) with 31 in Hnew.
  lia.
Qed.

(** X3: when the patch step reads the dependency script and its write
    does not fail, the script ends up without any legacy marker. *)
Theorem patched_script_has_no_marker (self : WindowsUpdater) (w : world)
    (content : bytes) :
  readable (dest_bat_deps self) w = Some content →
  wfault w !! dest_bat_deps self = None →
  ∃ patched,
    files (_update_dependencies_file self w).2 !! dest_bat_deps self
    = Some patched
    ∧ occurrences OLD_CONTENT patched = 0.
Proof.
  intros Hread Hwrite.
  destruct (_update_dependencies_file_runs self w) as (w' & -> & Hp).
  exists (replace content OLD_CONTENT NEW_CONTENT). split; [|apply patch_free].
  inversion Hp as [Hr|c Hr Hw|c f Hr Hw]; subst; [congruence| |congruence].
  rewrite Hr in Hread. injection Hread as ->. simpl. apply lookup_insert_eq.
Qed.

(** X4: running the patch step a second time leaves every file as the
    first run left it, whether the script is absent, unreadable, written
    or not writable. *)
Theorem patch_step_idempotent (self : WindowsUpdater) (w : world) :
  files (_update_dependencies_file self
           (_update_dependencies_file self w).2).2
  = files (_update_dependencies_file self w).2.
Proof.
  destruct (_update_dependencies_file_runs self w) as (w1 & -> & Hp1).
  cbn [snd].
  destruct (_update_dependencies_file_runs self w1) as (w2 & -> & Hp2).
  cbn [snd].
  inversion Hp1 as [Hr|c Hr Hw|c f Hr Hw]; subst.
  - inversion Hp2 as [Hr2|c2 Hr2 Hw2|c2 f2 Hr2 Hw2]; subst; [done|..];
      unfold readable in *; simpl in *; congruence.
  - match type of Hp2 with
    | patch_run _ ?w1 _ =>
        assert (readable (dest_bat_deps self) w1
                = Some (replace c OLD_CONTENT NEW_CONTENT)) as Hr1
    end.
    { unfold readable in *. simpl. rewrite lookup_insert_eq.
      destruct (files w !! dest_bat_deps self); [|done].
      by destruct (rfault w !! dest_bat_deps self). }
    inversion Hp2 as [Hr2|c2 Hr2 Hw2|c2 f2 Hr2 Hw2]; subst;
      [congruence | | simpl in *; congruence].
    rewrite Hr1 in Hr2. injection Hr2 as <-. cbn [files logged set_files].
    repeat match goal with x := _ |- _ => subst x end.
    change (replace_from OLD_CONTENT NEW_CONTENT 0 c)
      with (replace c OLD_CONTENT NEW_CONTENT).
    rewrite patch_twice. apply insert_insert_eq.
  - inversion Hp2 as [Hr2|c2 Hr2 Hw2|c2 f2 Hr2 Hw2]; subst.
    + done.
    + simpl in *. congruence.
    + simpl in *. assert (f2 = f) as -> by congruence.
      destruct (wf_residue f) as [d|]; simpl; [|done].
      apply insert_insert_eq.
Qed.

(** ** Reading and writing one file *)



(** X7: what [_write_file_content] has written, a following
    [_read_file_content] of the same path returns, when reads of the
    path do not fail. *)
Theorem write_then_read (p : Path) (data : bytes) (w w' : world) :
  rfault w !! p = None →
  _write_file_content p data w = (Ok true, w') →
  (_read_file_content p w').1 = Ok (Some data).
Proof.
  intros Hr. rewrite _write_file_content_eq, _read_file_content_eq.
  destruct (wfault w !! p) as [f|]; [done|]. intros [= <-].
  cbn [fst]. unfold readable. simpl. by rewrite lookup_insert_eq, Hr.
Qed.


(** ** The paths of [__init__] *)



(** ** More on runs of [update] *)

Lemma patch_run_stdout self w w1 :
  patch_run self w w1 →
  stdout w1 = stdout w
  ∨ ∃ msg, stdout w1
           = stdout w ++ ["Warning: Could not write to "
                          +:+ path_str (dest_bat_deps self) +:+ ": "
                          +:+ msg].
Proof. intros [Hr | c Hr Hw upd | c f Hr Hw upd]; simpl; eauto. Qed.

Section more_runs.

Context (self : WindowsUpdater) (Hsep : separate self).

(** A run in which a copy failed has passed validation and the
    eligibility test, and ends after [_copy_files]. *)
Lemma copy_failed_inv w r w' src dst :
  update self w = (r, w') →
  EvCopy src dst false ∈ new_events w w' →
  sources_present self w ∧ eligible self w = true
  ∧ ∃ msg w1,
      copy_files_run self (logged (EvRead (dest_bat self)) w)
        (Raise (Exc UpdaterError msg)) w1
      ∧ r = Ok false
      ∧ w' = printed ("Update failed: " +:+ msg) w1.
Proof.
  intros Hu Hfailed. apply update_runs in Hu.
  inversion Hu as [msg Hv|Hv Hel|msg w1 Hv Hel Hc|w1 w2 Hv Hel Hc Hp];
    subst.
  - revert Hfailed. events. intros Hin. members.
  - revert Hfailed. events. intros Hin. members.
  - split; [by apply sources_present_validated|]. split; [done|]. eauto.
  - exfalso.
    apply copy_files_run_done in Hc
      as (_ & _ & _ & _ & _ & _ & _ & _ & Hlog & _); [|done].
    apply patch_run_frame in Hp as (_ & _ & _ & evs & Hlog' & Hevs).
    revert Hfailed. unfold new_events. simpl in *. rewrite Hlog', Hlog.
    rewrite <- !app_assoc, drop_app_length. simpl.
    rewrite !elem_of_cons. intros [?|[?|[?|[?|Hin]]]]; try discriminate.
    rewrite Forall_forall in Hevs.
    destruct (Hevs _ Hin) as (data & ok & ?). discriminate.
Qed.

(** The world after a run that returned [True]. *)
Lemma update_true_world w w' :
  update self w = (Ok true, w') →
  ∃ d1 d2,
    files w !! source_updater self = Some d1
    ∧ files w !! source_bat self = Some d2
    ∧ files w' !! source_updater self = Some d1
    ∧ files w' !! source_bat self = Some d2
    ∧ files w' !! dest_updater self = Some d1
    ∧ files w' !! dest_bat self = Some d2
    ∧ rfault w' = rfault w ∧ wfault w' = wfault w.
Proof.
  intros Hu. destruct Hsep.
  apply (update_true_inv self) in Hu as (w1 & w2 & -> & Hc & Hp).
  apply copy_files_run_done in Hc
    as (d1 & d2 & Hs1 & Hs2 & Hf & Hr & Hw & _); [|done].
  apply patch_run_frame in Hp as (Hr2 & Hw2 & Hf2 & _).
  simpl in *. exists d1, d2.
  repeat split; [done.. | | | | | congruence | congruence];
    rewrite Hf2, Hf by done.
  - by rewrite !lookup_insert_ne.
  - by rewrite !lookup_insert_ne.
  - by rewrite lookup_insert_ne, lookup_insert_eq.
  - by rewrite lookup_insert_eq.
Qed.

End more_runs.


(** X11: the primary files are copied in order and a copy is never
    undone: when the copy of the updater script fails the launcher is
    not copied and stays as it was; when the copy of the launcher fails
    the updater script has been copied and keeps the bytes of its
    source. *)
Theorem copies_in_order (base : Path) (w : world) :
  let self := __init__ base in
  let w' := (update self w).2 in
  (EvCopy (source_updater self) (dest_updater self) false
     ∈ new_events w w' →
   files w' !! dest_bat self = files w !! dest_bat self
   ∧ ∀ ok, EvCopy (source_bat self) (dest_bat self) ok ∉ new_events w w')
  ∧ (EvCopy (source_bat self) (dest_bat self) false ∈ new_events w w' →
     EvCopy (source_updater self) (dest_updater self) true
       ∈ new_events w w'
     ∧ files w' !! dest_updater self = files w !! source_updater self).
Proof.
  intros self w'.
  pose proof (init_separate base) as Hsep. fold self in Hsep.
  clearbody self. subst w'.
  destruct (update self w) as [r w'] eqn:Hu. cbn [fst snd] in *.
  split; intros Hfailed;
    destruct (copy_failed_inv self Hsep _ _ _ _ _ Hu Hfailed)
      as (_ & _ & msg & w1 & Hc & -> & ->);
    destruct Hsep; revert Hfailed;
    inversion Hc; clear Hc; subst; invert_copy2; events; intros Hin.
  - split; [by apply lookup_leave_ne|]. intros ok Hin'. members.
  - members.
  - members.
  - split; [members|].
    rewrite lookup_leave_ne, lookup_insert_eq by done. done.
Qed.

(** X12: a run prints nothing, or one [Update failed] line, or the
    success line, or a warning about the dependency script followed by
    the success line; the success line is printed exactly by the runs
    that return [True]. *)
Theorem update_output (self : WindowsUpdater) (w : world) :
  let w' := (update self w).2 in
  ((update self w).1 = Ok true
   ∧ (new_output w w'
      = ["Updated the windows standalone package updater."]
      ∨ ∃ msg, new_output w w'
               = ["Warning: Could not write to "
                  +:+ path_str (dest_bat_deps self) +:+ ": " +:+ msg;
                  "Updated the windows standalone package updater."]))
  ∨ ((update self w).1 = Ok false
     ∧ (new_output w w' = []
        ∨ ∃ msg, new_output w w' = ["Update failed: " +:+ msg])).
Proof.
  intros w'. subst w'.
  destruct (update self w) as [r w'] eqn:Hu. cbn [fst snd].
  apply update_runs in Hu.
  inversion Hu as [msg Hv|Hv Hel|msg w1 Hv Hel Hc|w1 w2 Hv Hel Hc Hp];
    subst.
  - right. split; [done|]. right. exists msg. by events.
  - right. split; [done|]. left. by events.
  - right. split; [done|]. right. exists msg.
    apply copy_files_run_frame in Hc as (_ & _ & Hout & _).
    unfold new_output. simpl in *. rewrite Hout.
    by rewrite drop_app_length.
  - left. split; [done|].
    apply copy_files_run_frame in Hc as (_ & _ & Hout & _).
    apply patch_run_stdout in Hp as [Hout' | [msg Hout']];
      unfold new_output; simpl in *; rewrite Hout', Hout.
    + left. by rewrite drop_app_length.
    + right. exists msg. by rewrite <- app_assoc, drop_app_length.
Qed.

(** X13: the file operations of a run come in a fixed order: the read
    of the sentinel, the copy of the updater script, the copy of the
    launcher, the read of the dependency script, its write.  A run
    stops before the first of them when validation fails, after the
    read of the sentinel when the migration is not needed, and at the
    first copy that fails; the dependency script is written at most
    once. *)
Theorem operations_in_order (self : WindowsUpdater) (w : world) :
  let w' := (update self w).2 in
  let read_sentinel := EvRead (dest_bat self) in
  let copy_updater := EvCopy (source_updater self) (dest_updater self) in
  let copy_launcher := EvCopy (source_bat self) (dest_bat self) in
  let read_deps := EvRead (dest_bat_deps self) in
  ((update self w).1 = Ok false
   ∧ (new_events w w' = []
      ∨ new_events w w' = [read_sentinel]
      ∨ new_events w w' = [read_sentinel; copy_updater false]
      ∨ new_events w w'
        = [read_sentinel; copy_updater true; copy_launcher false]))
  ∨ ((update self w).1 = Ok true
     ∧ (new_events w w'
        = [read_sentinel; copy_updater true; copy_launcher true; read_deps]
        ∨ ∃ data ok,
            new_events w w'
            = [read_sentinel; copy_updater true; copy_launcher true;
               read_deps; EvWrite (dest_bat_deps self) data ok])).
Proof.
  intros w' read_sentinel copy_updater copy_launcher read_deps.
  subst w' read_sentinel copy_updater copy_launcher read_deps.
  destruct (update self w) as [r w'] eqn:Hu. cbn [fst snd].
  apply update_runs in Hu.
  inversion Hu as [msg Hv|Hv Hel|msg w1 Hv Hel Hc|w1 w2 Hv Hel Hc Hp];
    subst.
  - left. split; [done|]. left. by events.
  - left. split; [done|]. right; left. by events.
  - left. split; [done|]. right; right.
    inversion Hc; clear Hc; subst; invert_copy2; events; eauto.
  - right. split; [done|].
    inversion Hc; clear Hc; subst; invert_copy2.
    inversion Hp as [Hr|c Hr Hw|c f Hr Hw]; subst; events; eauto.
Qed.

(** X14: a run stopped by a failed copy that left the launcher as it
    was can be retried: on the files it leaves, once no operation fails
    any more, [update] returns [True]. *)
Theorem failed_copy_can_be_retried (base : Path) (w later : world)
    (src dst : Path) :
  let self := __init__ base in
  let w' := (update self w).2 in
  EvCopy src dst false ∈ new_events w w' →
  files w' !! dest_bat self = files w !! dest_bat self →
  files later = files w' → rfault later = ∅ → wfault later = ∅ →
  (update self later).1 = Ok true.
Proof.
  intros self w' Hfailed Hsentinel Hfiles Hr Hw.
  pose proof (init_separate base) as Hsep. fold self in Hsep.
  clearbody self. subst w'.
  destruct (update self w) as [r w'] eqn:Hu. cbn [fst snd] in *.
  destruct (copy_failed_inv self Hsep _ _ _ _ _ Hu Hfailed)
    as ([Hs1 Hs2] & Hel & msg & w1 & Hc & -> & ->).
  apply copy_files_run_frame in Hc as (_ & _ & _ & Hframe & _).
  simpl in *.
  assert (sources_present self later) as Hsrc.
  { destruct Hsep. unfold sources_present.
    rewrite Hfiles, !Hframe by done. done. }
  assert (eligible self later = true) as Hel'.
  { unfold eligible, readable in *.
    rewrite Hfiles, Hsentinel, Hr, lookup_empty.
    destruct (files w !! dest_bat self) as [d|]; [|done].
    by destruct (rfault w !! dest_bat self). }
  assert (¬ copy_blocked self later) as Hfree.
  { unfold copy_blocked. rewrite Hr, Hw, !lookup_empty.
    intros [[? H]|[[? H]|[[? H]|[? H]]]]; discriminate. }
  destruct (update_succeeds self Hsep later Hsrc Hel' Hfree)
    as (w2 & w3 & -> & _). done.
Qed.

(** X15: from a state with both sources present, the sentinel eligible
    and no failing operation, the first run returns [True] and the
    second returns whether the source launcher begins with the legacy
    prefix. *)
Theorem second_run_result (base : Path) (w : world) (launcher : bytes) :
  let self := __init__ base in
  sources_present self w → eligible self w = true →
  rfault w = ∅ → wfault w = ∅ →
  files w !! source_bat self = Some launcher →
  (update self w).1 = Ok true
  ∧ (update self (update self w).2).1
    = Ok (startswith launcher EXPECTED_BAT_PREFIX).
Proof.
  intros self Hsrc Hel Hr Hw Hlauncher.
  pose proof (init_separate base) as Hsep. fold self in Hsep.
  clearbody self.
  assert (∀ v : world, rfault v = ∅ → wfault v = ∅ →
                       ¬ copy_blocked self v) as Hfree.
  { intros v Hrv Hwv. unfold copy_blocked. rewrite Hrv, Hwv, !lookup_empty.
    intros [[? H]|[[? H]|[[? H]|[? H]]]]; discriminate. }
  destruct (update_succeeds self Hsep w Hsrc Hel (Hfree w Hr Hw))
    as (w1 & w2 & Hu & _).
  rewrite Hu. cbn [fst snd]. split; [done|].
  apply (update_true_world self Hsep) in Hu
    as (d1 & d2 & _ & Hs2 & Hs1' & Hs2' & _ & Hdb & Hr' & Hw').
  assert (d2 = launcher) as -> by congruence.
  set (w' := printed "Updated the windows standalone package updater." w2)
    in *.
  assert (eligible self w' = startswith launcher EXPECTED_BAT_PREFIX)
    as Hel'.
  { unfold eligible, readable. by rewrite Hdb, Hr', Hr, lookup_empty. }
  destruct (startswith launcher EXPECTED_BAT_PREFIX) eqn:Hlegacy.
  - assert (sources_present self w') as Hsrc'
      by (unfold sources_present; rewrite Hs1', Hs2'; eauto).
    assert (¬ copy_blocked self w') as Hfree'
      by (apply Hfree; congruence).
    destruct (update_succeeds self Hsep w' Hsrc' Hel' Hfree')
      as (w3 & w4 & -> & _). done.
  - destruct (update self w') as [r w3] eqn:Hu2. cbn [fst].
    apply update_runs in Hu2. inversion Hu2; subst; congruence.
Qed.

(** ** The further properties on the example install *)

Lemma patched_script_has_no_marker_witness :
  readable (dest_bat_deps Scenario.self) Scenario.legacy
  = Some Scenario.legacy_deps
  ∧ wfault Scenario.legacy !! dest_bat_deps Scenario.self = None
  ∧ ∃ patched,
      files (_update_dependencies_file Scenario.self Scenario.legacy).2
        !! dest_bat_deps Scenario.self
      = Some patched
      ∧ occurrences OLD_CONTENT patched = 0.
Proof.
  assert (readable (dest_bat_deps Scenario.self) Scenario.legacy
          = Some Scenario.legacy_deps) as Hread
    by (vm_compute; reflexivity).
  assert (wfault Scenario.legacy !! dest_bat_deps Scenario.self = None)
    as Hwrite by (vm_compute; reflexivity).
  repeat (split; [assumption|]).
  exact (patched_script_has_no_marker Scenario.self Scenario.legacy
           Scenario.legacy_deps Hread Hwrite).
Defined.

Lemma write_then_read_witness :
  rfault Scenario.legacy !! dest_bat_deps Scenario.self = None
  ∧ (_write_file_content (dest_bat_deps Scenario.self) Scenario.plain_deps
       Scenario.legacy).1 = Ok true
  ∧ (_read_file_content (dest_bat_deps Scenario.self)
       (_write_file_content (dest_bat_deps Scenario.self)
          Scenario.plain_deps Scenario.legacy).2).1
    = Ok (Some Scenario.plain_deps).
Proof.
  assert (rfault Scenario.legacy !! dest_bat_deps Scenario.self = None)
    as Hr by (vm_compute; reflexivity).
  assert (_write_file_content (dest_bat_deps Scenario.self)
            Scenario.plain_deps Scenario.legacy
          = (Ok true,
             (_write_file_content (dest_bat_deps Scenario.self)
                Scenario.plain_deps Scenario.legacy).2)) as Hwrite
    by (vm_compute; reflexivity).
  split; [exact Hr|]. split; [by rewrite Hwrite|].
  exact (write_then_read _ _ _ _ Hr Hwrite).
Defined.


Lemma copies_in_order_witness :
  EvCopy (source_bat Scenario.self) (dest_bat Scenario.self) false
    ∈ new_events Scenario.locked (update Scenario.self Scenario.locked).2
  ∧ EvCopy (source_updater Scenario.self) (dest_updater Scenario.self) true
      ∈ new_events Scenario.locked (update Scenario.self Scenario.locked).2
  ∧ files (update Scenario.self Scenario.locked).2
      !! dest_updater Scenario.self
    = files Scenario.locked !! source_updater Scenario.self.
Proof.
  assert (EvCopy (source_bat Scenario.self) (dest_bat Scenario.self) false
            ∈ new_events Scenario.locked
                (update Scenario.self Scenario.locked).2) as Hfailed
    by (apply (bool_decide_unpack _); vm_compute; exact I).
  split; [exact Hfailed|].
  exact (proj2 (copies_in_order Scenario.base Scenario.locked) Hfailed).
Defined.

Lemma failed_copy_can_be_retried_witness :
  EvCopy (source_bat Scenario.self) (dest_bat Scenario.self) false
    ∈ new_events Scenario.locked (update Scenario.self Scenario.locked).2
  ∧ files (update Scenario.self Scenario.locked).2
      !! dest_bat Scenario.self
    = files Scenario.locked !! dest_bat Scenario.self
  ∧ (update Scenario.self
       (World (files (update Scenario.self Scenario.locked).2) ∅ ∅ [] [])).1
    = Ok true.
Proof.
  assert (EvCopy (source_bat Scenario.self) (dest_bat Scenario.self) false
            ∈ new_events Scenario.locked
                (update Scenario.self Scenario.locked).2) as Hfailed
    by (apply (bool_decide_unpack _); vm_compute; exact I).
  assert (files (update Scenario.self Scenario.locked).2
            !! dest_bat Scenario.self
          = files Scenario.locked !! dest_bat Scenario.self) as Hsentinel
    by (vm_compute; reflexivity).
  split; [exact Hfailed|]. split; [exact Hsentinel|].
  exact (failed_copy_can_be_retried Scenario.base Scenario.locked
           (World (files (update Scenario.self Scenario.locked).2) ∅ ∅ [] [])
           _ _ Hfailed Hsentinel eq_refl eq_refl eq_refl).
Defined.

Lemma second_run_result_witness :
  sources_present Scenario.self Scenario.legacy_release
  ∧ eligible Scenario.self Scenario.legacy_release = true
  ∧ files Scenario.legacy_release !! source_bat Scenario.self
    = Some Scenario.legacy_launcher
  ∧ (update Scenario.self Scenario.legacy_release).1 = Ok true
  ∧ (update Scenario.self
       (update Scenario.self Scenario.legacy_release).2).1
    = Ok (startswith Scenario.legacy_launcher EXPECTED_BAT_PREFIX).
Proof.
  assert (sources_present Scenario.self Scenario.legacy_release) as Hsrc
    by (split; eexists; vm_compute; reflexivity).
  assert (eligible Scenario.self Scenario.legacy_release = true) as Hel
    by (vm_compute; reflexivity).
  assert (files Scenario.legacy_release !! source_bat Scenario.self
          = Some Scenario.legacy_launcher) as Hlauncher
    by (vm_compute; reflexivity).
  repeat (split; [assumption|]).
  exact (second_run_result Scenario.base Scenario.legacy_release
           Scenario.legacy_launcher Hsrc Hel eq_refl eq_refl Hlauncher).
Defined.

Lemma leave_keeps (p q : Path) (residue : option bytes)
    (fs : gmap Path bytes) :
  is_Some (fs !! q) → is_Some (leave p residue fs !! q).
Proof.
  intros Hq. destruct residue as [d|]; simpl; [|done].
  destruct (decide (p = q)) as [->|Hne].
  - rewrite lookup_insert_eq. eauto.
  - by rewrite lookup_insert_ne.
Qed.

Lemma insert_keeps (p q : Path) (d : bytes) (fs : gmap Path bytes) :
  is_Some (fs !! q) → is_Some (<[p := d]> fs !! q).
Proof. apply (leave_keeps p q (Some d)). Qed.

(** X16: a run never deletes a file, and it never creates the
    dependency script: when the script is absent before the run it is
    absent after it. *)
Theorem nothing_deleted (base : Path) (w : world) :
  let self := __init__ base in
  let w' := (update self w).2 in
  (∀ p, is_Some (files w !! p) → is_Some (files w' !! p))
  ∧ (files w !! dest_bat_deps self = None →
     files w' !! dest_bat_deps self = None).
Proof.
  intros self w'.
  pose proof (init_separate base) as Hsep. fold self in Hsep.
  clearbody self. subst w'.
  destruct (update self w) as [r w'] eqn:Hu. cbn [fst snd].
  apply update_runs in Hu.
  inversion Hu as [msg Hv|Hv Hel|msg w1 Hv Hel Hc|w1 w2 Hv Hel Hc Hp];
    subst; [done | done | |].
  - split.
    + intros p Hpres.
      inversion Hc; clear Hc; subst; invert_copy2; simpl;
        auto using leave_keeps, insert_keeps.
    + intros Habsent.
      apply copy_files_run_frame in Hc as (_ & _ & _ & Hframe & _).
      destruct Hsep. simpl in *. by rewrite Hframe.
  - pose proof (deps_after_copies self Hsep _ _ Hc) as (Hdeps & Hread & _).
    split.
    + intros p Hpres.
      assert (is_Some (files w1 !! p)) as Hp1.
      { inversion Hc; clear Hc; subst; invert_copy2; simpl;
          auto using insert_keeps. }
      inversion Hp as [Hr|c Hr Hw|c f Hr Hw]; subst; simpl;
        auto using leave_keeps, insert_keeps.
    + intros Habsent.
      assert (readable (dest_bat_deps self) w1 = None) as Hnone.
      { rewrite Hread. unfold readable. by rewrite Habsent. }
      inversion Hp as [Hr|c Hr Hw|c f Hr Hw]; subst; [|congruence..].
      simpl. congruence.
Qed.
